(** * Game of Life on a wraparound grid: a model of [gol.py] and its properties

    The simulation core of [gol.py] is [align_point], [num_cell_neighbors],
    [check_neighbors] and [compute_life].  This file embeds these four
    functions and proves the properties of the step function that the
    specification of the repository states.

    Modelling choices, all read off the source:
    - Python integers are unbounded: coordinates, counters and generation
      numbers are [Z].  Python's [%] is the floor modulo, which is
      [Z.modulo]; [x % 0] raises [ZeroDivisionError], which is the [None] of
      the [option] results below.
    - [Point] and [Cell] are named tuples: records with structural equality.
    - [cells] and [cells_next] are Python dicts that the program iterates
      over ([cells.values()]), so their insertion order is observable: they
      are association lists with the dict's update discipline ([Dict]).
    - [proc] is a dict that is only ever probed and extended, never iterated:
      it is a finite map [gmap Point bool], threaded through the calls that
      mutate it.
    - the module globals [rows] and [cols] are parameters. *)

From stdpp Require Import base option list gmap.
From Stdlib Require Import ZArith Lia.

Local Open Scope Z_scope.

(** ** Data *)

(** [Point = namedtuple("Point", ["x", "y"])] *)
Record Point : Type := mkPoint { x : Z; y : Z }.

(** [Cell = namedtuple("Cell", ["pos", "gen"])] *)
Record Cell : Type := mkCell { pos : Point; gen : Z }.

#[global] Instance Point_eq_dec : EqDecision Point.
Proof. solve_decision. Defined.

#[global] Instance Cell_eq_dec : EqDecision Cell.
Proof. solve_decision. Defined.

#[global] Instance Point_countable : Countable Point.
Proof.
  refine (inj_countable' (fun p => (x p, y p)) (fun q => mkPoint q.1 q.2) _).
  by intros [].
Defined.

(** ** Python dicts with observable insertion order *)

Module Dict.

Definition t (V : Type) : Type := list (Point * V).

(** [{}] *)
Definition empty {V} : t V := [].

(** [d.get(k)], the value of [d[k]] when [k in d] *)
Fixpoint get {V} (k : Point) (d : t V) : option V :=
  match d with
  | [] => None
  | (k', v) :: d' => if decide (k = k') then Some v else get k d'
  end.

(** [k in d] *)
Definition mem {V} (k : Point) (d : t V) : bool :=
  match get k d with Some _ => true | None => false end.

(** [d[k] = v]: an existing key keeps its place, a new key goes last *)
Fixpoint set {V} (k : Point) (v : V) (d : t V) : t V :=
  match d with
  | [] => [(k, v)]
  | (k', v') :: d' =>
      if decide (k = k') then (k', v) :: d' else (k', v') :: set k v d'
  end.

(** [d.keys()] and [d.values()], in iteration order *)
Definition keys {V} (d : t V) : list Point := d.*1.
Definition values {V} (d : t V) : list V := d.*2.

End Dict.

(** ** The program *)

(** [dirs = [(-1,-1), (-1,0), (-1,1), (0,-1), (0,1), (1,-1), (1,0), (1,1)]] *)
Definition dirs : list (Z * Z) :=
  [(-1,-1); (-1,0); (-1,1); (0,-1); (0,1); (1,-1); (1,0); (1,1)].

(** The neighbour of [point] in direction [d]: the source adds the two
    tuples componentwise (a [map] of [lambda x, y: x + y] over [point] and
    [d]) and rebuilds a [Point] from the result. *)
Definition shift (point : Point) (d : Z * Z) : Point :=
  mkPoint (x point + d.1) (y point + d.2).

Section World.

(** The globals [cols] and [rows], set once by [main]. *)
Variables cols rows : Z.

(** [align_point]: the first modulo is evaluated first, and each raises when
    its divisor is zero. *)
Definition align_point (point : Point) : option Point :=
  if decide (cols - 1 = 0) then None
  else if decide (rows - 1 = 0) then None
  else Some (mkPoint (x point `mod` (cols - 1)) (y point `mod` (rows - 1))).

(** [num_cell_neighbors]: the [for d in dirs] loop with its counter [n]. *)
Fixpoint num_cell_neighbors_loop (ds : list (Z * Z)) (point : Point)
    (cells : Dict.t Cell) (n : Z) : option Z :=
  match ds with
  | [] => Some n
  | d :: ds' =>
      np ← align_point (shift point d);
      num_cell_neighbors_loop ds' point cells
        (n + (if Dict.mem np cells then 1 else 0))
  end.

Definition num_cell_neighbors (point : Point) (cells : Dict.t Cell)
    : option Z :=
  num_cell_neighbors_loop dirs point cells 0.

(** The locals [n] and [births] of [check_neighbors] and the shared cache
    [proc], which the function mutates. *)
Record CheckState : Type :=
  mkCheck { cn_n : Z; cn_births : list Point; cn_proc : gmap Point bool }.

(** One iteration of the [for d in dirs] loop of [check_neighbors]. *)
Definition check_neighbors_body (cell : Cell) (cells : Dict.t Cell)
    (d : Z * Z) (st : CheckState) : option CheckState :=
  np ← align_point (shift (pos cell) d);
  match (cn_proc st !! np : option bool) with
  | Some b =>
      Some (mkCheck (cn_n st + (if b then 1 else 0)) (cn_births st)
              (cn_proc st))
  | None =>
      if Dict.mem np cells then
        Some (mkCheck (cn_n st + 1) (cn_births st)
                (<[np := true]> (cn_proc st)))
      else
        k ← num_cell_neighbors np cells;
        Some (mkCheck (cn_n st)
                (if decide (k = 3) then cn_births st ++ [np]
                 else cn_births st)
                (<[np := false]> (cn_proc st)))
  end.

Fixpoint check_neighbors_loop (ds : list (Z * Z)) (cell : Cell)
    (cells : Dict.t Cell) (st : CheckState) : option CheckState :=
  match ds with
  | [] => Some st
  | d :: ds' =>
      st' ← check_neighbors_body cell cells d st;
      check_neighbors_loop ds' cell cells st'
  end.

(** [check_neighbors(cell, cells, proc)] returns [(n, births)] and leaves
    its writes in [proc]; the result carries all three. *)
Definition check_neighbors (cell : Cell) (cells : Dict.t Cell)
    (proc : gmap Point bool) : option CheckState :=
  check_neighbors_loop dirs cell cells (mkCheck 0 [] proc).

(** [for pos in births: cells_next[pos] = Cell(pos, gen + 1)] *)
Fixpoint add_births (births : list Point) (gen : Z)
    (cells_next : Dict.t Cell) : Dict.t Cell :=
  match births with
  | [] => cells_next
  | p :: births' =>
      add_births births' gen (Dict.set p (mkCell p (gen + 1)) cells_next)
  end.

(** One iteration of the [for cell in cells.values()] loop of
    [compute_life], on the pair [(proc, cells_next)]. *)
Definition compute_life_body (cells : Dict.t Cell) (gen : Z) (cell : Cell)
    (st : gmap Point bool * Dict.t Cell)
    : option (gmap Point bool * Dict.t Cell) :=
  r ← check_neighbors cell cells st.1;
  let cells_next :=
    if (cn_n r =? 2) || (cn_n r =? 3)
    then Dict.set (pos cell) cell st.2 else st.2 in
  Some (cn_proc r, add_births (cn_births r) gen cells_next).

Fixpoint compute_life_loop (vs : list Cell) (cells : Dict.t Cell) (gen : Z)
    (st : gmap Point bool * Dict.t Cell)
    : option (gmap Point bool * Dict.t Cell) :=
  match vs with
  | [] => Some st
  | cell :: vs' =>
      st' ← compute_life_body cells gen cell st;
      compute_life_loop vs' cells gen st'
  end.

Definition compute_life (cells : Dict.t Cell) (gen : Z)
    : option (Dict.t Cell) :=
  st ← compute_life_loop (Dict.values cells) cells gen (∅, Dict.empty);
  Some st.2.

End World.

(** The 2 x 2 block of the still-life scenario, somewhere in the plane, its
    four cells of different generations. *)
Definition block_points : list Point :=
  [mkPoint 3 4; mkPoint 4 4; mkPoint 3 5; mkPoint 4 5].

Definition block : Dict.t Cell :=
  [ (mkPoint 3 4, mkCell (mkPoint 3 4) 0);
    (mkPoint 4 4, mkCell (mkPoint 4 4) 5);
    (mkPoint 3 5, mkCell (mkPoint 3 5) 2);
    (mkPoint 4 5, mkCell (mkPoint 4 5) 7) ].

(** ** The driver: [main]

    [main] reads the screen size into the globals, seeds the population
    around the centre of the screen and loops forever: draw every cell, step,
    count the generation, sleep.  The curses calls are effects on the
    terminal; what they are called with is data, and that is what is
    modelled: the seed, the state [(cells, gen)] from one iteration to the
    next, and the arguments of the [addch] calls of one frame. *)

(** [seed = [(-1,0), (0,0), (0,-1), (0,1), (1,1)]], the R-pentomino. *)
Definition seed : list (Z * Z) := [(-1,0); (0,0); (0,-1); (0,1); (1,1)].

(** [origo = Point(int(cols / 2), int(rows / 2))]: a float division and a
    truncation.  For the sizes curses reports (machine integers, far below
    [2^53]) the float quotient is exact and [int] truncates it, which is
    [Z.quot]. *)
Definition origo (cols rows : Z) : Point :=
  mkPoint (cols `quot` 2) (rows `quot` 2).

(** [seed_t = [Point(origo.x + x, origo.y - y) for (x, y) in seed]] *)
Definition seed_t (o : Point) : list Point :=
  (fun s => mkPoint (x o + s.1) (y o - s.2)) <$> seed.

(** The dict comprehension that maps each point [p] of a list to
    [Cell(p, gen)]: the points are inserted in order. *)
Fixpoint cells_of_points (ps : list Point) (gen : Z) (d : Dict.t Cell)
    : Dict.t Cell :=
  match ps with
  | [] => d
  | p :: ps' => cells_of_points ps' gen (Dict.set p (mkCell p gen) d)
  end.

Definition seed_cells (o : Point) (gen : Z) : Dict.t Cell :=
  cells_of_points (seed_t o) gen Dict.empty.

(** One iteration of the [while True] loop, on the state [(cells, gen)]:
    [cells = compute_life(cells, gen); gen += 1]. *)
Definition tick (cols rows : Z) (st : Dict.t Cell * Z)
    : option (Dict.t Cell * Z) :=
  cells ← compute_life cols rows st.1 st.2;
  Some (cells, st.2 + 1).

(** The state after [n] iterations of the loop. *)
Fixpoint run (cols rows : Z) (n : nat) (st : Dict.t Cell * Z)
    : option (Dict.t Cell * Z) :=
  match n with
  | O => Some st
  | S n' => st' ← tick cols rows st; run cols rows n' st'
  end.

(** The [addch] calls of one frame, in order: row [cell.pos.y], column
    [cell.pos.x] and colour pair [cell.gen % 7 + 1] of every cell. *)
Definition frame (cells : Dict.t Cell) : list (Z * Z * Z) :=
  (fun cell => (y (pos cell), x (pos cell), gen cell `mod` 7 + 1))
    <$> Dict.values cells.

(** The state [main] enters its loop with. *)
Definition main_state (cols rows : Z) : Dict.t Cell * Z :=
  (seed_cells (origo cols rows) 0, 0).

(** The horizontal blinker of the oscillator scenario, all three cells of
    generation [g]. *)
Definition blinker (g : Z) : Dict.t Cell :=
  [ (mkPoint 0 0, mkCell (mkPoint 0 0) g);
    (mkPoint 1 0, mkCell (mkPoint 1 0) g);
    (mkPoint 2 0, mkCell (mkPoint 2 0) g) ].

(** ** Vocabulary of the specification *)

(** The modulo of [align_point] is defined: neither divisor is zero. *)
Definition dims_ok (cols rows : Z) : Prop := cols - 1 ≠ 0 ∧ rows - 1 ≠ 0.

(** A population as the program builds it: a dict (no key twice) whose cells
    sit at their own position. *)
Definition population_wf (cells : Dict.t Cell) : Prop :=
  NoDup (Dict.keys cells) ∧ Forall (fun kc => pos kc.2 = kc.1) cells.

(** A position of the wraparound domain: [align_point] leaves it alone. *)
Definition in_domain (cols rows : Z) (p : Point) : Prop :=
  align_point cols rows p = Some p.

(** The cache tells the truth about the input population. *)
Definition cache_ok (cells : Dict.t Cell) (proc : gmap Point bool) : Prop :=
  ∀ p b, proc !! p = Some b → b = Dict.mem p cells.

(** Two dicts hold the same mapping (Python's [==] on dicts). *)
Definition same_mapping (d1 d2 : Dict.t Cell) : Prop :=
  ∀ p, Dict.get p d1 = Dict.get p d2.

(** The value of [align_point] where it is defined. *)
Definition align (cols rows : Z) (p : Point) : Point :=
  mkPoint (x p `mod` (cols - 1)) (y p `mod` (rows - 1)).

(** What one neighbour adds to a count: [1 if np in cells else 0]. *)
Definition occ (cells : Dict.t Cell) (q : Point) : Z :=
  if Dict.mem q cells then 1 else 0.

(** The number of directions of [ds] in which [p] has an occupied
    neighbour, and the eight neighbours themselves. *)
Fixpoint count_dirs (cols rows : Z) (ds : list (Z * Z)) (p : Point)
    (cells : Dict.t Cell) : Z :=
  match ds with
  | [] => 0
  | d :: ds' =>
      occ cells (align cols rows (shift p d)) + count_dirs cols rows ds' p cells
  end.

Definition count (cols rows : Z) (p : Point) (cells : Dict.t Cell) : Z :=
  count_dirs cols rows dirs p cells.

Definition neighbours_in (cols rows : Z) (ds : list (Z * Z)) (p : Point)
    : list Point :=
  (fun d => align cols rows (shift p d)) <$> ds.

(** What one probe of [check_neighbors] does to the cache. *)
Definition proc_probe (cells : Dict.t Cell) (proc : gmap Point bool)
    (np : Point) : gmap Point bool :=
  match proc !! np with
  | Some _ => proc
  | None => <[np := Dict.mem np cells]> proc
  end.

(** The births that one probe of [check_neighbors] appends: the probed
    point, when it is new to the cache, dead and has three occupied
    neighbours. *)
Definition probe_births (cols rows : Z) (cells : Dict.t Cell)
    (proc : gmap Point bool) (np : Point) : list Point :=
  match proc !! np with
  | Some _ => []
  | None =>
      if Dict.mem np cells then []
      else if decide (count cols rows np cells = 3) then [np] else []
  end.

(** The Life rule at [p], read off the input population: what the next
    population holds at [p]. *)
Definition survives (n : Z) : bool := (n =? 2) || (n =? 3).

Definition lives (cols rows : Z) (cells : Dict.t Cell) (gen : Z) (p : Point)
    : option Cell :=
  match Dict.get p cells with
  | Some c => if survives (count cols rows p cells) then Some c else None
  | None =>
      if bool_decide (align cols rows p = p) && (count cols rows p cells =? 3)
      then Some (mkCell p (gen + 1)) else None
  end.

(** The invariant of the loop of [compute_life], once the cells of [done]
    are processed: the cache is truthful and holds the neighbours of the
    processed cells, and [cells_next] holds the processed cells that survive
    and the cached dead points that have three occupied neighbours. *)
Definition life_inv (cols rows : Z) (cells : Dict.t Cell) (gen : Z)
    (done : list Cell) (st : gmap Point bool * Dict.t Cell) : Prop :=
  cache_ok cells st.1
  ∧ (∀ q, is_Some (st.1 !! q) ↔
          ∃ c, c ∈ done ∧ q ∈ neighbours_in cols rows dirs (pos c))
  ∧ NoDup (Dict.keys st.2)
  ∧ ∀ p, Dict.get p st.2 =
      match Dict.get p cells with
      | Some c =>
          if bool_decide (c ∈ done) && survives (count cols rows p cells)
          then Some c else None
      | None =>
          if bool_decide (is_Some (st.1 !! p)) && (count cols rows p cells =? 3)
          then Some (mkCell p (gen + 1)) else None
      end.

(** The cache at a point of the run of [compute_life]: after the first [i]
    cells of [cells.values()] are fully processed and the first [j]
    directions of the next cell are probed. *)
Definition cache_at (cols rows : Z) (cells : Dict.t Cell) (gen : Z)
    (i j : nat) : option (gmap Point bool) :=
  st ← compute_life_loop cols rows (take i (Dict.values cells)) cells gen
         (∅, Dict.empty);
  match Dict.values cells !! i with
  | Some cell =>
      r ← check_neighbors_loop cols rows (take j dirs) cell cells
            (mkCheck 0 [] st.1);
      Some (cn_proc r)
  | None => Some st.1
  end.

(** Life on the unbounded plane, for patterns given as lists of points: the
    occupied neighbours of [p], the rule at [p], and the next pattern (with
    repetitions: it is read as a set). *)
Fixpoint planar_count_dirs (ds : list (Z * Z)) (K : list Point) (p : Point)
    : Z :=
  match ds with
  | [] => 0
  | d :: ds' =>
      (if bool_decide (shift p d ∈ K) then 1 else 0)
      + planar_count_dirs ds' K p
  end.

Definition planar_count (K : list Point) (p : Point) : Z :=
  planar_count_dirs dirs K p.

Definition planar_alive (K : list Point) (p : Point) : bool :=
  if bool_decide (p ∈ K) then survives (planar_count K p)
  else planar_count K p =? 3.

Definition planar_next (K : list Point) : list Point :=
  filter (fun p => planar_alive K p = true)
         (K ++ (k ← K; (shift k) <$> dirs)).

(** The pattern [K] lies in the box [x0..x1] x [y0..y1]; [u] lies within
    distance [r] of the box. *)
Definition in_box (x0 x1 y0 y1 : Z) (r : Z) (u : Point) : Prop :=
  x0 - r ≤ x u ≤ x1 + r ∧ y0 - r ≤ y u ≤ y1 + r.

(** Moving around the torus by the vector [t]: a point, a cell (its
    generation is kept) and a population (every key and every cell). *)
Definition move (cols rows : Z) (t : Z * Z) (p : Point) : Point :=
  align cols rows (shift p t).

Definition opposite (t : Z * Z) : Z * Z := (- t.1, - t.2).

Definition move_cell (cols rows : Z) (t : Z * Z) (c : Cell) : Cell :=
  mkCell (move cols rows t (pos c)) (gen c).

Definition translate (cols rows : Z) (t : Z * Z) (cells : Dict.t Cell)
    : Dict.t Cell :=
  (fun kc => (move cols rows t kc.1, move_cell cols rows t kc.2)) <$> cells.

(** The torus of the specification, stated without the program: a position
    of the [W] x [H] torus, its eight neighbours (left, right, up and down
    wrap around the edges), and the number of them that are occupied, that
    is, are keys of a population that lies on the torus. *)
Definition on_torus (W H : Z) (p : Point) : Prop :=
  0 ≤ x p < W ∧ 0 ≤ y p < H.

Definition torus_neighbours (W H : Z) (p : Point) : list Point :=
  let left := (x p - 1) `mod` W in
  let here := x p `mod` W in
  let right := (x p + 1) `mod` W in
  let up := (y p - 1) `mod` H in
  let level := y p `mod` H in
  let down := (y p + 1) `mod` H in
  [ mkPoint left up; mkPoint left level; mkPoint left down;
    mkPoint here up; mkPoint here down;
    mkPoint right up; mkPoint right level; mkPoint right down ].

Definition occupied_neighbours (W H : Z) (cells : Dict.t Cell) (p : Point)
    : Z :=
  Z.of_nat (length (filter (fun q => q ∈ Dict.keys cells)
                      (torus_neighbours W H p))).

(** ** Facts about dicts *)

Section DictFacts.
Context {V : Type}.
Implicit Types (d : Dict.t V) (k p : Point) (v : V).

Lemma get_set k v d p :
  Dict.get p (Dict.set k v d) = if decide (p = k) then Some v else Dict.get p d.
Proof.
  induction d as [|[k' v'] d IH]; simpl.
  - by repeat case_decide.
  - repeat (case_decide; simpl; subst); try done; try congruence.
    all: rewrite IH; by case_decide.
Qed.

Lemma mem_set k v d p :
  Dict.mem p (Dict.set k v d) = if decide (p = k) then true else Dict.mem p d.
Proof. unfold Dict.mem. rewrite get_set. by case_decide. Qed.

Lemma keys_set k v d :
  Dict.keys (Dict.set k v d) =
  if Dict.mem k d then Dict.keys d else Dict.keys d ++ [k].
Proof.
  unfold Dict.keys, Dict.mem.
  induction d as [|[k' v'] d IH]; csimpl; [done|].
  case_decide; csimpl; [done|]. rewrite IH. by destruct (Dict.get k d).
Qed.

Lemma mem_true_keys p d : Dict.mem p d = true ↔ p ∈ Dict.keys d.
Proof.
  unfold Dict.mem, Dict.keys.
  induction d as [|[k' v'] d IH]; simpl.
  - split; [done|]. by intros ?%elem_of_nil.
  - rewrite elem_of_cons. case_decide as Hk.
    + split; [by left|done].
    + rewrite IH. split; [by right|]. by intros [?|?].
Qed.

Lemma mem_false_keys p d : Dict.mem p d = false ↔ p ∉ Dict.keys d.
Proof. rewrite <- mem_true_keys. by destruct (Dict.mem p d). Qed.

Lemma mem_get p d : Dict.mem p d = true ↔ is_Some (Dict.get p d).
Proof.
  unfold Dict.mem. destruct (Dict.get p d); split; try done.
Qed.

Lemma get_None_mem p d : Dict.get p d = None ↔ Dict.mem p d = false.
Proof. unfold Dict.mem. by destruct (Dict.get p d). Qed.

Lemma NoDup_keys_set k v d :
  NoDup (Dict.keys d) → NoDup (Dict.keys (Dict.set k v d)).
Proof.
  intros Hd. rewrite keys_set.
  destruct (Dict.mem k d) eqn:Hm; [done|].
  apply NoDup_app; split_and!; [done| |apply NoDup_singleton].
  intros q Hq ->%list_elem_of_singleton.
  by apply mem_false_keys in Hm.
Qed.

Lemma get_elem_of p v d : Dict.get p d = Some v → (p, v) ∈ d.
Proof.
  induction d as [|[k' v'] d IH]; simpl; [done|].
  case_decide.
  - intros [= ->]. subst. apply list_elem_of_here.
  - intros ?. apply list_elem_of_further. auto.
Qed.

Lemma elem_of_get p v d : NoDup (Dict.keys d) → (p, v) ∈ d → Dict.get p d = Some v.
Proof.
  unfold Dict.keys.
  induction d as [|[k' v'] d IH]; simpl.
  - by intros _ ?%elem_of_nil.
  - intros [Hk Hd]%NoDup_cons [Heq|Hin]%elem_of_cons.
    + injection Heq as -> ->. by rewrite decide_True.
    + case_decide; [|by auto]. subst.
      exfalso. apply Hk. apply list_elem_of_fmap. by exists (k', v).
Qed.

Lemma get_Permutation p d d' :
  NoDup (Dict.keys d) → d ≡ₚ d' → Dict.get p d = Dict.get p d'.
Proof.
  intros Hd Hp.
  assert (NoDup (Dict.keys d')) as Hd'.
  { unfold Dict.keys in *. by rewrite <- Hp. }
  destruct (Dict.get p d) as [v|] eqn:Hg.
  - symmetry. apply elem_of_get; [done|]. rewrite <- Hp. by apply get_elem_of.
  - destruct (Dict.get p d') as [v'|] eqn:Hg'; [|done].
    apply get_elem_of in Hg'. rewrite <- Hp in Hg'.
    apply elem_of_get in Hg'; [congruence|done].
Qed.

End DictFacts.

Lemma get_add_births births gen d p :
  Dict.get p (add_births births gen d)
  = if decide (p ∈ births) then Some (mkCell p (gen + 1)) else Dict.get p d.
Proof.
  revert d. induction births as [|b births IH]; intros d; cbn [add_births].
  - case_decide as Hin; [by apply elem_of_nil in Hin|done].
  - rewrite IH, get_set. rewrite (decide_ext _ _ _ _ (elem_of_cons births p b)).
    destruct (decide (p ∈ births)) as [Hin|Hin].
    + rewrite decide_True; [done|]. by right.
    + case_decide as Hb; [subst b|].
      * rewrite decide_True; [done|]. by left.
      * rewrite decide_False; [done|]. by intros [?|?].
Qed.

Lemma NoDup_keys_add_births births gen d :
  NoDup (Dict.keys d) → NoDup (Dict.keys (add_births births gen d)).
Proof.
  revert d. induction births as [|b births IH]; intros d Hd; simpl; [done|].
  by apply IH, NoDup_keys_set.
Qed.

(** In a well-formed population every cell is found at its own position, and
    no cell occurs twice among the values. *)
Lemma wf_pos cells k c : population_wf cells → (k, c) ∈ cells → pos c = k.
Proof.
  intros [_ Hpos] Hin. rewrite Forall_forall in Hpos. apply (Hpos _ Hin).
Qed.

Lemma wf_get_pos cells c :
  population_wf cells → c ∈ Dict.values cells → Dict.get (pos c) cells = Some c.
Proof.
  intros Hwf Hc. unfold Dict.values in Hc.
  apply list_elem_of_fmap in Hc as ([k c'] & -> & Hin). simpl.
  rewrite (wf_pos _ _ _ Hwf Hin). apply elem_of_get; [apply Hwf|done].
Qed.

Lemma wf_get_inv cells p c :
  population_wf cells → Dict.get p cells = Some c →
  pos c = p ∧ c ∈ Dict.values cells.
Proof.
  intros Hwf Hg%get_elem_of. split; [by eapply wf_pos|].
  unfold Dict.values. apply list_elem_of_fmap. by exists (p, c).
Qed.

Lemma wf_values_NoDup cells : population_wf cells → NoDup (Dict.values cells).
Proof.
  intros Hwf. apply (NoDup_fmap_1 pos).
  replace (pos <$> Dict.values cells) with (Dict.keys cells); [apply Hwf|].
  unfold Dict.values, Dict.keys. rewrite <- list_fmap_compose.
  apply list_fmap_ext. intros i [k c] Hl. simpl. symmetry.
  apply (wf_pos _ _ _ Hwf). by eapply list_elem_of_lookup_2.
Qed.

(** ** Facts about the wraparound geometry *)

Section Geometry.
Variables cols rows : Z.
Hypothesis Hdims : dims_ok cols rows.

Lemma align_point_ok p : align_point cols rows p = Some (align cols rows p).
Proof.
  destruct Hdims as [Hc Hr]. unfold align_point, align.
  by rewrite !decide_False.
Qed.

Lemma align_idem p : align cols rows (align cols rows p) = align cols rows p.
Proof. unfold align; simpl. by rewrite !Z.mod_mod by apply Hdims. Qed.

Lemma align_shift_align p d :
  align cols rows (shift (align cols rows p) d) = align cols rows (shift p d).
Proof. unfold align, shift; simpl. by rewrite !Zplus_mod_idemp_l. Qed.

Lemma in_domain_align p : in_domain cols rows p ↔ align cols rows p = p.
Proof.
  unfold in_domain. rewrite align_point_ok. split; [by intros [= ->]|].
  by intros ->.
Qed.

Lemma neighbour_back p d :
  align cols rows (shift (align cols rows (shift p d)) (- d.1, - d.2))
  = align cols rows p.
Proof.
  rewrite align_shift_align. unfold align, shift; simpl.
  f_equal; f_equal; lia.
Qed.

Lemma dirs_opposite d : d ∈ dirs → (- d.1, - d.2) ∈ dirs.
Proof.
  unfold dirs. rewrite !elem_of_cons, elem_of_nil.
  intros H. repeat destruct H as [->|H]; simpl; try done; set_solver.
Qed.

Lemma occ_bounds cells q : 0 ≤ occ cells q ≤ 1.
Proof. unfold occ. destruct (Dict.mem q cells); lia. Qed.

Lemma count_dirs_bounds ds p cells :
  0 ≤ count_dirs cols rows ds p cells ≤ Z.of_nat (length ds).
Proof.
  induction ds as [|d ds IH]; simpl; [lia|].
  pose proof (occ_bounds cells (align cols rows (shift p d))). lia.
Qed.

Lemma count_bounds p cells : 0 ≤ count cols rows p cells ≤ 8.
Proof. apply (count_dirs_bounds dirs). Qed.

Lemma count_dirs_witness ds p cells :
  0 < count_dirs cols rows ds p cells →
  ∃ d, d ∈ ds ∧ Dict.mem (align cols rows (shift p d)) cells = true.
Proof.
  induction ds as [|d ds IH]; simpl; [lia|].
  unfold occ at 1.
  destruct (Dict.mem (align cols rows (shift p d)) cells) eqn:Hm.
  - intros _. exists d. split; [apply list_elem_of_here|done].
  - intros H. destruct IH as (d' & ? & ?); [lia|].
    exists d'. split; [by apply list_elem_of_further|done].
Qed.

Lemma num_cell_neighbors_loop_ok ds p cells n :
  num_cell_neighbors_loop cols rows ds p cells n
  = Some (n + count_dirs cols rows ds p cells).
Proof.
  revert n. induction ds as [|d ds IH]; intros n; simpl.
  - f_equal. lia.
  - rewrite align_point_ok. simpl. rewrite IH. unfold occ. f_equal. lia.
Qed.

Lemma num_cell_neighbors_ok p cells :
  num_cell_neighbors cols rows p cells = Some (count cols rows p cells).
Proof. unfold num_cell_neighbors. by rewrite num_cell_neighbors_loop_ok. Qed.

(** A position of the domain with an occupied neighbour is itself a
    neighbour of a living cell. *)
Lemma counted_is_neighbour p cells :
  align cols rows p = p → 0 < count cols rows p cells →
  ∃ k d, k ∈ Dict.keys cells ∧ d ∈ dirs ∧ align cols rows (shift k d) = p.
Proof.
  intros Hp (d & Hd & Hm)%count_dirs_witness.
  exists (align cols rows (shift p d)), (- d.1, - d.2).
  split_and!.
  - by apply mem_true_keys.
  - by apply dirs_opposite.
  - by rewrite neighbour_back.
Qed.

End Geometry.

(** ** The cache and [check_neighbors] *)

Section Cache.
Variables cols rows : Z.
Hypothesis Hdims : dims_ok cols rows.
Variable cells : Dict.t Cell.

Lemma cache_ok_empty : cache_ok cells ∅.
Proof. intros p b. by rewrite lookup_empty. Qed.

Lemma probe_lookup proc np q :
  cache_ok cells proc →
  proc_probe cells proc np !! q
  = if decide (q = np) then Some (Dict.mem np cells) else proc !! q.
Proof.
  intros Hok. unfold proc_probe.
  destruct (proc !! np) as [b|] eqn:Hnp.
  - case_decide as Hq; [|done]. subst q. rewrite Hnp. f_equal. by apply Hok.
  - rewrite lookup_insert. by repeat case_decide; subst.
Qed.

Lemma probe_cache_ok proc np :
  cache_ok cells proc → cache_ok cells (proc_probe cells proc np).
Proof.
  intros Hok q b. rewrite probe_lookup by done.
  case_decide; [by intros [= <-]; subst|apply Hok].
Qed.

Lemma probe_keeps proc np q b :
  cache_ok cells proc →
  proc !! q = Some b → proc_probe cells proc np !! q = Some b.
Proof.
  intros Hok Hq. rewrite probe_lookup by done.
  case_decide; [|done]. subst q. f_equal. symmetry. by apply Hok.
Qed.

Lemma probe_cases proc np :
  proc_probe cells proc np = proc
  ∨ proc !! np = None ∧ proc_probe cells proc np = <[np := Dict.mem np cells]> proc.
Proof. unfold proc_probe. destruct (proc !! np); [by left|by right]. Qed.

Lemma elem_of_probe_births proc np q :
  q ∈ probe_births cols rows cells proc np ↔
  q = np ∧ proc !! q = None ∧ Dict.mem q cells = false
  ∧ count cols rows q cells = 3.
Proof.
  unfold probe_births. split.
  - destruct (proc !! np) eqn:Hnp; [by intros ?%elem_of_nil|].
    destruct (Dict.mem np cells) eqn:Hm; [by intros ?%elem_of_nil|].
    case_decide; [|by intros ?%elem_of_nil].
    by intros ->%list_elem_of_singleton.
  - intros (-> & -> & -> & Hc). rewrite decide_True by done.
    by apply list_elem_of_singleton.
Qed.

(** One iteration of the loop of [check_neighbors], in closed form. *)
Lemma check_neighbors_body_ok cell d st :
  cache_ok cells (cn_proc st) →
  let np := align cols rows (shift (pos cell) d) in
  check_neighbors_body cols rows cell cells d st
  = Some (mkCheck (cn_n st + occ cells np)
            (cn_births st ++ probe_births cols rows cells (cn_proc st) np)
            (proc_probe cells (cn_proc st) np)).
Proof.
  intros Hok np. unfold check_neighbors_body.
  rewrite align_point_ok by done. simpl. fold np.
  unfold probe_births, proc_probe, occ.
  destruct (cn_proc st !! np) as [b|] eqn:Hnp.
  - rewrite (Hok _ _ Hnp), app_nil_r. done.
  - destruct (Dict.mem np cells) eqn:Hm.
    + by rewrite app_nil_r.
    + rewrite num_cell_neighbors_ok by done. simpl.
      case_decide; [|rewrite app_nil_r]; do 2 f_equal; lia.
Qed.

Lemma elem_of_neighbours_cons d ds p q :
  q ∈ neighbours_in cols rows (d :: ds) p ↔
  q = align cols rows (shift p d) ∨ q ∈ neighbours_in cols rows ds p.
Proof. unfold neighbours_in. by rewrite fmap_cons, elem_of_cons. Qed.

(** The whole loop: it always returns; the counter grows by the number of
    occupied neighbours, the cache only grows and stays truthful, and the
    births appended are the dead neighbours, new to the cache, that have
    three occupied neighbours. *)
Lemma check_neighbors_loop_ok ds cell st :
  cache_ok cells (cn_proc st) →
  ∃ st' bs,
    check_neighbors_loop cols rows ds cell cells st = Some st'
    ∧ cn_n st' = cn_n st + count_dirs cols rows ds (pos cell) cells
    ∧ cn_births st' = cn_births st ++ bs
    ∧ cache_ok cells (cn_proc st')
    ∧ (∀ q b, cn_proc st !! q = Some b → cn_proc st' !! q = Some b)
    ∧ (∀ q, is_Some (cn_proc st' !! q) ↔
            is_Some (cn_proc st !! q)
            ∨ q ∈ neighbours_in cols rows ds (pos cell))
    ∧ (∀ q, q ∈ bs ↔
            q ∈ neighbours_in cols rows ds (pos cell)
            ∧ cn_proc st !! q = None ∧ Dict.mem q cells = false
            ∧ count cols rows q cells = 3).
Proof.
  revert st. induction ds as [|d ds IH]; intros st Hok.
  - exists st, []. simpl. split_and!; try done.
    + lia.
    + by rewrite app_nil_r.
    + intros q. split; [by left|]. by intros [?|?%elem_of_nil].
    + intros q. split; [by intros ?%elem_of_nil|]. by intros [?%elem_of_nil _].
  - cbn [check_neighbors_loop count_dirs].
    rewrite check_neighbors_body_ok by done. cbn [mbind option_bind].
    set (np := align cols rows (shift (pos cell) d)).
    set (st1 := mkCheck _ _ _).
    destruct (IH st1) as (st' & bs & Hrun & Hn & Hb & Hok' & Hkeep & Hdom & Hbs).
    { by apply probe_cache_ok. }
    exists st', (probe_births cols rows cells (cn_proc st) np ++ bs).
    split_and!; try done.
    + rewrite Hn. simpl. lia.
    + rewrite Hb. simpl. by rewrite app_assoc.
    + intros q b Hq. apply Hkeep. simpl. by apply probe_keeps.
    + intros q. rewrite Hdom, elem_of_neighbours_cons. fold np.
      unfold st1; cbn [cn_proc]. rewrite probe_lookup by done.
      case_decide as Hq; [subst q|tauto].
      split; [intros _; right; by left|intros _; by left].
    + intros q.
      rewrite elem_of_app, Hbs, elem_of_probe_births, elem_of_neighbours_cons.
      fold np. unfold st1; cbn [cn_proc]. rewrite probe_lookup by done.
      case_decide as Hq; [subst q|]; split.
      * intros [(_ & ? & ? & ?)|(_ & [=] & _)]. split_and!; try done. by left.
      * intros (_ & ? & ? & ?). by left.
      * intros [(? & _)|(? & ? & ? & ?)]; [done|]. split_and!; try done. by right.
      * intros ([?|?] & ? & ? & ?); [done|]. by right.
Qed.

(** [check_neighbors] itself: the count it returns is the number of
    occupied neighbours of the cell, cached or not. *)
Lemma check_neighbors_ok cell proc :
  cache_ok cells proc →
  ∃ r,
    check_neighbors cols rows cell cells proc = Some r
    ∧ cn_n r = count cols rows (pos cell) cells
    ∧ cache_ok cells (cn_proc r)
    ∧ (∀ q b, proc !! q = Some b → cn_proc r !! q = Some b)
    ∧ (∀ q, is_Some (cn_proc r !! q) ↔
            is_Some (proc !! q)
            ∨ q ∈ neighbours_in cols rows dirs (pos cell))
    ∧ (∀ q, q ∈ cn_births r ↔
            q ∈ neighbours_in cols rows dirs (pos cell)
            ∧ proc !! q = None ∧ Dict.mem q cells = false
            ∧ count cols rows q cells = 3).
Proof.
  intros Hok. unfold check_neighbors.
  destruct (check_neighbors_loop_ok dirs cell (mkCheck 0 [] proc) Hok)
    as (r & bs & Hrun & Hn & Hb & Hok' & Hkeep & Hdom & Hbs).
  cbn [cn_n cn_births cn_proc] in *.
  exists r. split_and!; try done.
  intros q. by rewrite Hb, app_nil_l.
Qed.

End Cache.

(** ** The loop of [compute_life] *)

Section Life.
Variables cols rows : Z.
Hypothesis Hdims : dims_ok cols rows.
Variables (cells : Dict.t Cell) (gen : Z).
Hypothesis Hwf : population_wf cells.

Lemma life_inv_init : life_inv cols rows cells gen [] (∅, Dict.empty).
Proof.
  split_and!; simpl.
  - apply cache_ok_empty.
  - intros q. rewrite lookup_empty. split; [by intros [? ?]|].
    by intros (c & ?%elem_of_nil & _).
  - apply NoDup_nil_2.
  - intros p. rewrite lookup_empty.
    destruct (Dict.get p cells); [done|].
    rewrite bool_decide_eq_false_2; [done|]. by intros [? ?].
Qed.

Lemma compute_life_body_inv done c st :
  Dict.get (pos c) cells = Some c → c ∉ done →
  life_inv cols rows cells gen done st →
  ∃ st', compute_life_body cols rows cells gen c st = Some st'
         ∧ life_inv cols rows cells gen (done ++ [c]) st'.
Proof.
  intros Hc Hnew (Hok & Hdom & Hnd & Hget).
  unfold compute_life_body.
  destruct (check_neighbors_ok cols rows Hdims cells c st.1 Hok)
    as (r & -> & Hn & Hok' & Hkeep & Hdom' & Hbs).
  cbn [mbind option_bind].
  eexists. split; [done|].
  fold (survives (cn_n r)). rewrite Hn.
  split_and!; cbn [fst snd].
  - done.
  - intros q. rewrite Hdom', Hdom. split.
    + intros [(c' & ? & ?)|?].
      * exists c'. split; [|done]. apply elem_of_app. by left.
      * exists c. split; [|done]. apply elem_of_app. right.
        by apply list_elem_of_singleton.
    + intros (c' & [?| ->%list_elem_of_singleton]%elem_of_app & ?).
      * left. by exists c'.
      * by right.
  - apply NoDup_keys_add_births. by destruct (survives _); [apply NoDup_keys_set|].
  - intros p. rewrite get_add_births.
    assert (Dict.get p (if survives (count cols rows (pos c) cells)
                        then Dict.set (pos c) c st.2 else st.2)
            = if decide (p = pos c)
              then (if survives (count cols rows p cells) then Some c else None)
              else Dict.get p st.2) as ->.
    { case_decide as Hp; [subst p|].
      - destruct (survives _) eqn:Hs.
        + rewrite get_set. by rewrite decide_True.
        + rewrite Hget, Hc. by rewrite bool_decide_eq_false_2.
      - destruct (survives _); [|done]. rewrite get_set. by rewrite decide_False. }
    destruct (Dict.get p cells) as [c0|] eqn:Hp.
    + destruct (wf_get_inv _ _ _ Hwf Hp) as [Hpos _].
      rewrite decide_False.
      2:{ rewrite Hbs. intros (_ & _ & Hm & _).
          apply get_None_mem in Hm. congruence. }
      case_decide as Hpc.
      * subst p. assert (c0 = c) as -> by congruence.
        rewrite bool_decide_eq_true_2; [done|].
        apply elem_of_app. right. by apply list_elem_of_singleton.
      * rewrite Hget, Hp.
        assert (c0 ≠ c) by congruence.
        rewrite (bool_decide_ext (c0 ∈ done ++ [c]) (c0 ∈ done)); [done|].
        rewrite elem_of_app, list_elem_of_singleton. tauto.
    + rewrite (decide_False (P := p = pos c)) by congruence.
      rewrite Hget, Hp.
      destruct (count cols rows p cells =? 3) eqn:H3.
      2:{ rewrite !andb_false_r. rewrite decide_False; [done|].
          rewrite Hbs. intros (_ & _ & _ & ?). lia. }
      rewrite !andb_true_r. apply Z.eqb_eq in H3.
      apply get_None_mem in Hp.
      destruct (st.1 !! p) as [b|] eqn:Hsp.
      * rewrite (Hkeep _ _ Hsp). rewrite decide_False; [done|].
        rewrite Hbs, Hsp. by intros (_ & [=] & _).
      * rewrite (bool_decide_eq_false_2 (is_Some None)) by (by intros [? ?]).
        destruct (decide (p ∈ neighbours_in cols rows dirs (pos c))) as [Hin|Hin].
        -- rewrite decide_True by (by apply Hbs).
           rewrite bool_decide_eq_true_2; [done|]. apply Hdom'. by right.
        -- rewrite decide_False by (rewrite Hbs; tauto).
           rewrite bool_decide_eq_false_2; [done|]. rewrite Hdom', Hsp.
           intros [[? ?]|?]; done.
Qed.

Lemma compute_life_loop_inv vs done st :
  (∀ c, c ∈ vs → Dict.get (pos c) cells = Some c) →
  NoDup (done ++ vs) →
  life_inv cols rows cells gen done st →
  ∃ st', compute_life_loop cols rows vs cells gen st = Some st'
         ∧ life_inv cols rows cells gen (done ++ vs) st'.
Proof.
  revert done st. induction vs as [|c vs IH]; intros done st Hvs Hnd Hinv.
  - exists st. by rewrite app_nil_r.
  - cbn [compute_life_loop].
    destruct (compute_life_body_inv done c st) as (st1 & -> & Hinv1);
      [apply Hvs, list_elem_of_here| |done|].
    { apply NoDup_app in Hnd as (_ & Hnd & _). intros Hin.
      apply (Hnd _ Hin), list_elem_of_here. }
    cbn [mbind option_bind].
    replace (done ++ c :: vs) with ((done ++ [c]) ++ vs) in *
      by (by rewrite <- app_assoc).
    apply IH; [|done|done].
    intros c' Hc'. apply Hvs. by apply list_elem_of_further.
Qed.


Lemma lives_pos p c : lives cols rows cells gen p = Some c → pos c = p.
Proof.
  unfold lives. destruct (Dict.get p cells) as [c0|] eqn:Hp.
  - destruct (survives _); [|done]. intros [= <-].
    by destruct (wf_get_inv _ _ _ Hwf Hp).
  - destruct (_ && _); [|done]. by intros [= <-].
Qed.

(** The step function always returns on a well-formed population, and its
    result is the Life rule read pointwise. *)
Lemma compute_life_lives :
  ∃ out, compute_life cols rows cells gen = Some out
         ∧ population_wf out
         ∧ ∀ p, Dict.get p out = lives cols rows cells gen p.
Proof.
  unfold compute_life.
  destruct (compute_life_loop_inv (Dict.values cells) [] (∅, Dict.empty))
    as (st & -> & Hok & Hdom & Hnd & Hget).
  { intros c Hc. by apply wf_get_pos. }
  { by apply wf_values_NoDup. }
  { apply life_inv_init. }
  rewrite app_nil_l in *. cbn [mbind option_bind].
  assert (∀ p, Dict.get p st.2 = lives cols rows cells gen p) as Hlives.
  { intros p. rewrite Hget. unfold lives.
    destruct (Dict.get p cells) as [c|] eqn:Hp.
    - destruct (wf_get_inv _ _ _ Hwf Hp) as [_ Hin].
      by rewrite bool_decide_eq_true_2.
    - destruct (count cols rows p cells =? 3) eqn:H3;
        [|by rewrite !andb_false_r].
      apply Z.eqb_eq in H3. rewrite !andb_true_r.
      rewrite (bool_decide_ext (is_Some (st.1 !! p)) (align cols rows p = p));
        [done|].
      rewrite Hdom. split.
      + intros (c & _ & Hin). unfold neighbours_in in Hin.
        apply list_elem_of_fmap in Hin as (d & -> & _). by apply align_idem.
      + intros Hal.
        destruct (counted_is_neighbour cols rows Hdims p cells Hal)
          as (k & d & Hk & Hd & Hkd); [lia|].
        unfold Dict.keys in Hk.
        apply list_elem_of_fmap in Hk as ([k' c] & -> & Hin). simpl in Hkd.
        exists c. split.
        * unfold Dict.values. apply list_elem_of_fmap. by exists (k', c).
        * rewrite (wf_pos _ _ _ Hwf Hin). unfold neighbours_in.
          apply list_elem_of_fmap. by exists d. }
  exists st.2. split_and!; [done| |done].
  split; [done|]. apply Forall_forall. intros [k c] Hin. simpl.
  apply elem_of_get in Hin; [|done]. rewrite Hlives in Hin.
  by apply lives_pos.
Qed.

End Life.

(** ** Consequences of the pointwise rule *)

Section Rule.
Variables cols rows : Z.
Hypothesis Hdims : dims_ok cols rows.

Lemma count_dirs_ext ds p cells cells' :
  (∀ q, Dict.get q cells = Dict.get q cells') →
  count_dirs cols rows ds p cells = count_dirs cols rows ds p cells'.
Proof.
  intros Hext. induction ds as [|d ds IH]; simpl; [done|].
  rewrite IH. unfold occ, Dict.mem. by rewrite Hext.
Qed.

Lemma lives_ext cells cells' gen p :
  (∀ q, Dict.get q cells = Dict.get q cells') →
  lives cols rows cells gen p = lives cols rows cells' gen p.
Proof.
  intros Hext. unfold lives, count.
  by rewrite Hext, (count_dirs_ext dirs p cells cells').
Qed.

Lemma lives_survivor cells gen p c :
  lives cols rows cells gen p = Some c → Dict.get p cells = Some c →
  count cols rows p cells = 2 ∨ count cols rows p cells = 3.
Proof.
  unfold lives, survives. intros Hl Hp. rewrite Hp in Hl.
  destruct (_ =? 2) eqn:H2; [left; lia|].
  destruct (_ =? 3) eqn:H3; [right; lia|]. done.
Qed.

(** The rule, as a proposition: what [lives] returns and why. *)
Lemma lives_Some cells gen p c :
  lives cols rows cells gen p = Some c ↔
  (Dict.get p cells = Some c
   ∧ (count cols rows p cells = 2 ∨ count cols rows p cells = 3))
  ∨ (Dict.get p cells = None ∧ align cols rows p = p
     ∧ count cols rows p cells = 3 ∧ c = mkCell p (gen + 1)).
Proof.
  unfold lives, survives.
  destruct (Dict.get p cells) as [c0|] eqn:Hp.
  - destruct (_ =? 2) eqn:H2; destruct (_ =? 3) eqn:H3; simpl;
      (split; [intros [= ->]|intros [[[= ->] ?]|[[=] _]]]); try done;
      try lia; left; split; try done; lia.
  - case_bool_decide as Hal; simpl.
    + destruct (_ =? 3) eqn:H3;
        (split; [intros [= <-]|intros [[[=] _]|(_ & _ & ? & ->)]]);
        try done; try lia.
      right. split_and!; try done. lia.
    + split; [done|]. by intros [[[=] _]|(_ & ? & _)].
Qed.

Lemma lives_is_Some cells gen p :
  is_Some (lives cols rows cells gen p) ↔
  (Dict.mem p cells = true
   ∧ (count cols rows p cells = 2 ∨ count cols rows p cells = 3))
  ∨ (Dict.mem p cells = false ∧ align cols rows p = p
     ∧ count cols rows p cells = 3).
Proof.
  split.
  - intros [c [[Hp ?]|(Hp & ? & ? & _)]%lives_Some].
    + left. split; [|done]. apply mem_get. by rewrite Hp.
    + right. split_and!; try done. by apply get_None_mem.
  - intros [[[c Hp]%mem_get ?]|(Hp%get_None_mem & ? & ?)].
    + exists c. apply lives_Some. by left.
    + eexists. apply lives_Some. right. by split_and!.
Qed.

End Rule.

Lemma align_point_undefined cols rows p :
  ¬ dims_ok cols rows → align_point cols rows p = None.
Proof.
  intros Hbad. unfold align_point.
  case_decide; [done|]. case_decide; [done|]. by destruct Hbad.
Qed.

(** With a zero divisor the first probe of the first cell raises. *)
Lemma compute_life_undefined cols rows cells gen :
  ¬ dims_ok cols rows → cells ≠ [] → compute_life cols rows cells gen = None.
Proof.
  intros Hbad Hne. destruct cells as [|[k c] cells]; [done|].
  unfold compute_life, Dict.values. rewrite fmap_cons.
  cbn [compute_life_loop snd]. unfold compute_life_body, check_neighbors, dirs.
  cbn [check_neighbors_loop].
  assert (∀ d st, check_neighbors_body cols rows c ((k, c) :: cells) d st = None)
    as ->; [|done].
  intros d st. unfold check_neighbors_body.
  by rewrite align_point_undefined.
Qed.

Lemma wf_Permutation cells cells' :
  population_wf cells → cells ≡ₚ cells' → population_wf cells'.
Proof.
  intros [Hnd Hpos] Hp. split.
  - unfold Dict.keys in *. by rewrite <- Hp.
  - by rewrite <- Hp.
Qed.

Lemma same_mapping_Permutation out out' :
  population_wf out → population_wf out' → same_mapping out out' → out ≡ₚ out'.
Proof.
  intros [Hnd _] [Hnd' _] Hsame.
  apply NoDup_Permutation.
  - by apply (NoDup_fmap_1 fst).
  - by apply (NoDup_fmap_1 fst).
  - intros [k c]. split; intros Hin.
    + apply get_elem_of. rewrite <- Hsame. by apply elem_of_get.
    + apply get_elem_of. rewrite Hsame. by apply elem_of_get.
Qed.

(** ** The run of the loops, point by point *)

Lemma check_neighbors_loop_snoc cols rows ds d cell cells st :
  check_neighbors_loop cols rows (ds ++ [d]) cell cells st
  = check_neighbors_loop cols rows ds cell cells st
    ≫= check_neighbors_body cols rows cell cells d.
Proof.
  revert st. induction ds as [|d' ds IH]; intros st; cbn [app check_neighbors_loop].
  - cbn [mbind option_bind]. by destruct (check_neighbors_body _ _ _ _ _ _).
  - destruct (check_neighbors_body cols rows cell cells d' st) as [st1|]; [|done].
    cbn [mbind option_bind]. apply IH.
Qed.

Lemma compute_life_loop_snoc cols rows vs c cells gen st :
  compute_life_loop cols rows (vs ++ [c]) cells gen st
  = compute_life_loop cols rows vs cells gen st
    ≫= compute_life_body cols rows cells gen c.
Proof.
  revert st. induction vs as [|c' vs IH]; intros st; cbn [app compute_life_loop].
  - cbn [mbind option_bind]. by destruct (compute_life_body _ _ _ _ _ _).
  - destruct (compute_life_body cols rows cells gen c' st) as [st1|]; [|done].
    cbn [mbind option_bind]. apply IH.
Qed.

(** The loop of [compute_life] returns on every dict, and keeps the cache
    truthful. *)
Lemma compute_life_loop_cache cols rows vs cells gen st :
  dims_ok cols rows → cache_ok cells st.1 →
  ∃ st', compute_life_loop cols rows vs cells gen st = Some st'
         ∧ cache_ok cells st'.1.
Proof.
  intros Hdims. revert st. induction vs as [|c vs IH]; intros st Hok.
  - by exists st.
  - cbn [compute_life_loop]. unfold compute_life_body.
    destruct (check_neighbors_ok cols rows Hdims cells c st.1 Hok)
      as (r & -> & _ & Hok' & _).
    cbn [mbind option_bind]. by apply IH.
Qed.

(** ** Patterns that fit the torus

    A pattern whose bounding box leaves three free columns and three free
    rows on the torus evolves there as on the plane: no neighbourhood wraps
    around onto the pattern. *)

Lemma mod_inj_near W a b :
  0 < W → a `mod` W = b `mod` W → - W < a - b < W → a = b.
Proof.
  intros HW Hmod Hnear.
  assert ((a - b) `mod` W = 0) as Hz.
  { by rewrite Zminus_mod, Hmod, Z.sub_diag, Zmod_0_l. }
  apply Zmod_divides in Hz as [c Hc]; [|lia].
  assert (c = 0) by nia. subst c. lia.
Qed.

Lemma dirs_small d : d ∈ dirs → -1 ≤ d.1 ≤ 1 ∧ -1 ≤ d.2 ≤ 1.
Proof.
  unfold dirs. rewrite !elem_of_cons, elem_of_nil.
  intros H. repeat destruct H as [->|H]; simpl; lia.
Qed.

Section Planar.
Variables cols rows : Z.
Hypothesis HW : 0 < cols - 1.
Hypothesis HH : 0 < rows - 1.
Variables (K : list Point) (x0 x1 y0 y1 : Z).
Hypothesis Hbox : Forall (in_box x0 x1 y0 y1 0) K.
Hypothesis Hfit : x1 - x0 + 3 ≤ cols - 1 ∧ y1 - y0 + 3 ≤ rows - 1.
Variable cells : Dict.t Cell.
Hypothesis Hkeys :
  ∀ p, Dict.mem p cells = true ↔ p ∈ align cols rows <$> K.

Lemma planar_dims_ok : dims_ok cols rows.
Proof. split; lia. Qed.

Lemma mem_align_near u :
  in_box x0 x1 y0 y1 2 u →
  Dict.mem (align cols rows u) cells = true ↔ u ∈ K.
Proof.
  intros [Hx Hy]. rewrite Hkeys, list_elem_of_fmap. split.
  - intros (k & Hal & Hk).
    rewrite Forall_forall in Hbox. destruct (Hbox k Hk) as [Hkx Hky].
    injection Hal as Hax Hay.
    apply mod_inj_near in Hax; [|lia|lia].
    apply mod_inj_near in Hay; [|lia|lia].
    destruct u, k; simpl in *. by subst.
  - intros Hu. by exists u.
Qed.

Lemma count_dirs_planar ds p :
  in_box x0 x1 y0 y1 1 p → ds ⊆ dirs →
  count_dirs cols rows ds (align cols rows p) cells
  = planar_count_dirs ds K p.
Proof.
  intros [Hx Hy]. induction ds as [|d ds IH]; intros Hsub; simpl; [done|].
  rewrite IH by (intros e He; apply Hsub; by right).
  f_equal. rewrite align_shift_align.
  destruct (dirs_small d) as [Hd1 Hd2]; [apply Hsub; by left|].
  assert (in_box x0 x1 y0 y1 2 (shift p d)) as Hnear.
  { unfold in_box, shift; simpl. lia. }
  unfold occ. pose proof (mem_align_near _ Hnear) as Hiff.
  destruct (Dict.mem _ cells).
  - rewrite bool_decide_eq_true_2; [done|]. by apply Hiff.
  - rewrite bool_decide_eq_false_2; [done|]. intros Hin.
    by apply Hiff in Hin.
Qed.

Lemma count_planar p :
  in_box x0 x1 y0 y1 1 p →
  count cols rows (align cols rows p) cells = planar_count K p.
Proof. intros Hp. by apply count_dirs_planar. Qed.

Lemma in_box_weaken r r' u :
  r ≤ r' → in_box x0 x1 y0 y1 r u → in_box x0 x1 y0 y1 r' u.
Proof. unfold in_box. lia. Qed.

Lemma neighbour_in_box k d :
  k ∈ K → d ∈ dirs → in_box x0 x1 y0 y1 1 (shift k d).
Proof.
  intros Hk Hd. rewrite Forall_forall in Hbox.
  destruct (Hbox k Hk) as [Hkx Hky]. destruct (dirs_small d Hd).
  unfold in_box, shift; simpl. lia.
Qed.

Lemma candidate_in_box u :
  u ∈ K ++ (k ← K; (shift k) <$> dirs) → in_box x0 x1 y0 y1 1 u.
Proof.
  rewrite elem_of_app, list_elem_of_bind. intros [Hu|(k & Hin & Hk)].
  - rewrite Forall_forall in Hbox. apply (in_box_weaken 0); [lia|by apply Hbox].
  - apply list_elem_of_fmap in Hin as (d & -> & Hd). by apply neighbour_in_box.
Qed.

(** The next population on the torus holds the aligned points of the next
    pattern on the plane, and nothing else. *)
Lemma planar_agreement gen p :
  is_Some (lives cols rows cells gen p) ↔
  p ∈ align cols rows <$> planar_next K.
Proof.
  pose proof planar_dims_ok as Hdims.
  rewrite lives_is_Some, list_elem_of_fmap. split.
  - intros [[Hm Hc]|(Hm & Hal & Hc)].
    + apply Hkeys, list_elem_of_fmap in Hm as (k & -> & Hk).
      exists k. split; [done|].
      apply list_elem_of_filter. split; [|apply elem_of_app; by left].
      unfold planar_alive. rewrite bool_decide_eq_true_2 by done.
      rewrite <- count_planar.
      2:{ rewrite Forall_forall in Hbox.
          apply (in_box_weaken 0); [lia|by apply Hbox]. }
      unfold survives. destruct Hc as [->| ->]; reflexivity.
    + destruct (counted_is_neighbour cols rows Hdims p cells Hal)
        as (k' & d & Hk' & Hd & Hkd); [lia|].
      apply mem_true_keys, Hkeys, list_elem_of_fmap in Hk' as (k & -> & Hk).
      rewrite align_shift_align in Hkd. subst p.
      pose proof (neighbour_in_box k d Hk Hd) as Hnear.
      exists (shift k d). split; [done|].
      apply list_elem_of_filter. split.
      * unfold planar_alive. rewrite bool_decide_eq_false_2.
        -- rewrite <- count_planar by done. rewrite Hc. reflexivity.
        -- intros Hin.
           apply (mem_align_near _ (in_box_weaken 1 2 _ ltac:(lia) Hnear)) in Hin.
           congruence.
      * apply elem_of_app. right. apply list_elem_of_bind. exists k.
        split; [|done]. apply list_elem_of_fmap. by exists d.
  - intros (u & -> & [Halive Hcand]%list_elem_of_filter).
    pose proof (candidate_in_box u Hcand) as Hnear.
    pose proof (mem_align_near _ (in_box_weaken 1 2 _ ltac:(lia) Hnear)) as Hiff.
    unfold planar_alive in Halive. rewrite count_planar by done.
    case_bool_decide as Hu.
    + left. split; [by apply Hiff|].
      unfold survives in Halive.
      destruct (_ =? 2) eqn:H2; [left; lia|].
      destruct (_ =? 3) eqn:H3; [right; lia|]. done.
    + right. split_and!.
      * apply not_true_is_false. intros Hm. by apply Hiff in Hm.
      * by apply align_idem.
      * lia.
Qed.

End Planar.

Lemma count_dirs_mono cols rows ds p cells cells' :
  (∀ q, occ cells q ≤ occ cells' q) →
  count_dirs cols rows ds p cells ≤ count_dirs cols rows ds p cells'.
Proof.
  intros Hle. induction ds as [|d ds IH]; simpl; [lia|].
  specialize (Hle (align cols rows (shift p d))). lia.
Qed.

Lemma mod_minus_one W : 0 < W → (-1) `mod` W = W - 1.
Proof. intros HW. symmetry. apply (Z.mod_unique (-1) W (-1) (W - 1)); lia. Qed.

Lemma align_small cols rows p :
  0 ≤ x p < cols - 1 → 0 ≤ y p < rows - 1 → align cols rows p = p.
Proof.
  intros Hx Hy. unfold align. rewrite !Z.mod_small by done. by destruct p.
Qed.

Lemma elem_of_fmap_ext {A B} (f : A → B) (l l' : list A) b :
  (∀ a, a ∈ l ↔ a ∈ l') → b ∈ f <$> l ↔ b ∈ f <$> l'.
Proof.
  intros Hext. rewrite !list_elem_of_fmap.
  split; intros (a & -> & Ha); exists a; (split; [done|]); by apply Hext.
Qed.

(** One step of the two phases of the blinker on the plane. *)
Lemma planar_next_horizontal u :
  u ∈ planar_next [mkPoint 0 0; mkPoint 1 0; mkPoint 2 0] ↔
  u ∈ [mkPoint 1 (-1); mkPoint 1 0; mkPoint 1 1].
Proof.
  assert (planar_next [mkPoint 0 0; mkPoint 1 0; mkPoint 2 0]
          = [mkPoint 1 0; mkPoint 1 (-1); mkPoint 1 0; mkPoint 1 1;
             mkPoint 1 (-1); mkPoint 1 1; mkPoint 1 (-1); mkPoint 1 0;
             mkPoint 1 1]) as -> by (vm_compute; reflexivity).
  rewrite !elem_of_cons, elem_of_nil. tauto.
Qed.

Lemma planar_next_vertical u :
  u ∈ planar_next [mkPoint 1 (-1); mkPoint 1 0; mkPoint 1 1] ↔
  u ∈ [mkPoint 0 0; mkPoint 1 0; mkPoint 2 0].
Proof.
  assert (planar_next [mkPoint 1 (-1); mkPoint 1 0; mkPoint 1 1]
          = [mkPoint 1 0; mkPoint 0 0; mkPoint 1 0; mkPoint 2 0;
             mkPoint 0 0; mkPoint 2 0; mkPoint 0 0; mkPoint 1 0;
             mkPoint 2 0]) as -> by (vm_compute; reflexivity).
  rewrite !elem_of_cons, elem_of_nil. tauto.
Qed.

(** ** The model at work *)

(** The blinker on the 6 x 6 torus: the dict after one step, in insertion
    order (the two births of the first cell, then the surviving centre), and
    after two steps. *)
Example blinker_step_1 :
  compute_life 7 7 (blinker 0) 0
  = Some [ (mkPoint 1 5, mkCell (mkPoint 1 5) 1);
           (mkPoint 1 1, mkCell (mkPoint 1 1) 1);
           (mkPoint 1 0, mkCell (mkPoint 1 0) 0) ].
Proof. vm_compute. reflexivity. Qed.

Example blinker_step_2 :
  (out ← compute_life 7 7 (blinker 0) 0; compute_life 7 7 out 1)
  = Some [ (mkPoint 0 0, mkCell (mkPoint 0 0) 2);
           (mkPoint 2 0, mkCell (mkPoint 2 0) 2);
           (mkPoint 1 0, mkCell (mkPoint 1 0) 0) ].
Proof. vm_compute. reflexivity. Qed.

(** A one-column screen ([cols = 1]) makes the modulus zero: the first
    probe raises. *)
Example one_column_raises : compute_life 1 7 (blinker 0) 0 = None.
Proof. vm_compute. reflexivity. Qed.

(** On the 3 x 3 torus the blinker fills its row and the whole torus comes
    alive: the oscillator needs room. *)
Example blinker_cramped :
  Dict.keys <$> compute_life 4 4 (blinker 0) 0
  = Some [ mkPoint 0 0; mkPoint 2 2; mkPoint 2 1; mkPoint 0 2; mkPoint 0 1;
           mkPoint 1 2; mkPoint 1 1; mkPoint 1 0; mkPoint 2 0 ].
Proof. vm_compute. reflexivity. Qed.

(** ** The count of the program and the count of the torus *)

Lemma count_dirs_keys cols rows ds p cells :
  count_dirs cols rows ds p cells
  = Z.of_nat (length (filter (fun q => q ∈ Dict.keys cells)
                        (neighbours_in cols rows ds p))).
Proof.
  induction ds as [|d ds IH]; [done|].
  cbn [count_dirs]. unfold neighbours_in in *. rewrite fmap_cons, filter_cons.
  rewrite IH. unfold occ.
  destruct (Dict.mem (align cols rows (shift p d)) cells) eqn:Hm.
  - apply mem_true_keys in Hm. rewrite decide_True by done.
    rewrite length_cons. lia.
  - apply mem_false_keys in Hm. rewrite decide_False by done. lia.
Qed.

Lemma neighbours_in_torus cols rows p :
  neighbours_in cols rows dirs p = torus_neighbours (cols - 1) (rows - 1) p.
Proof.
  unfold neighbours_in, torus_neighbours, dirs, align, shift.
  rewrite !fmap_cons, fmap_nil. cbn [x y fst snd].
  rewrite !Z.add_0_r. reflexivity.
Qed.

Lemma count_occupied_neighbours cols rows p cells :
  count cols rows p cells
  = occupied_neighbours (cols - 1) (rows - 1) cells p.
Proof.
  unfold count, occupied_neighbours.
  by rewrite count_dirs_keys, neighbours_in_torus.
Qed.

Lemma on_torus_align cols rows p :
  on_torus (cols - 1) (rows - 1) p → align cols rows p = p.
Proof. intros [? ?]. by apply align_small. Qed.

Lemma align_on_torus cols rows p :
  0 < cols - 1 → 0 < rows - 1 →
  align cols rows p = p → on_torus (cols - 1) (rows - 1) p.
Proof.
  intros HW HH <-. unfold on_torus, align; simpl.
  split; by apply Z.mod_pos_bound.
Qed.

Lemma blinker_on_torus g : Forall (on_torus (7 - 1) (7 - 1)) (Dict.keys (blinker g)).
Proof.
  unfold blinker, Dict.keys, on_torus. simpl.
  repeat (apply Forall_cons; split; [simpl; lia|]). apply Forall_nil_2.
Defined.

(** A key off the torus is never seen: [align_point] only ever produces
    positions of the torus, so the cell at (6,0), which the 6 x 6 torus
    identifies with (0,0), is no neighbour of (1,0) for the program, and the
    three cells die.  The properties below are about populations on the
    torus. *)
Example key_off_torus_unseen :
  let cells := [ (mkPoint 6 0, mkCell (mkPoint 6 0) 0);
                 (mkPoint 1 0, mkCell (mkPoint 1 0) 0);
                 (mkPoint 2 0, mkCell (mkPoint 2 0) 0) ] in
  compute_life 7 7 cells 0 = Some []
  ∧ num_cell_neighbors 7 7 (mkPoint 1 0) cells = Some 1.
Proof. vm_compute. by split. Qed.

(** ** The properties of the specification *)

(** A population and a world to try the theorems on: the blinker on the
    6 x 6 torus ([cols = rows = 7]). *)
Lemma dims_ok_7 : dims_ok 7 7.
Proof. split; discriminate. Defined.

Lemma blinker_wf g : population_wf (blinker g).
Proof.
  split.
  - unfold blinker, Dict.keys. simpl.
    repeat (apply NoDup_cons; split;
            [rewrite ?elem_of_cons, elem_of_nil; intros H;
             repeat destruct H as [H|H]; discriminate H || exact H|]).
    apply NoDup_nil_2.
  - repeat (apply Forall_cons; split; [reflexivity|]). apply Forall_nil_2.
Defined.

(** C1. For every population and generation, the next population holds a
    position [p] exactly when the standard Life rule says so under toroidal
    adjacency: [p] is a key of the input and 2 or 3 of its eight neighbours
    on the torus are keys of the input (survival), or [p] is not a key of
    the input and exactly 3 of them are (birth).  The torus is the domain of
    the program, [cols - 1] wide and [rows - 1] high; the population and [p]
    lie on it; the neighbours are counted by [occupied_neighbours], which
    does not go through the program. *)
Theorem step_follows_life_rule cols rows cells gen p :
  0 < cols - 1 → 0 < rows - 1 →
  population_wf cells →
  Forall (on_torus (cols - 1) (rows - 1)) (Dict.keys cells) →
  on_torus (cols - 1) (rows - 1) p →
  ∃ out,
    compute_life cols rows cells gen = Some out
    ∧ (p ∈ Dict.keys out ↔
       (p ∈ Dict.keys cells
        ∧ (occupied_neighbours (cols - 1) (rows - 1) cells p = 2
           ∨ occupied_neighbours (cols - 1) (rows - 1) cells p = 3))
       ∨ ((p ∉ Dict.keys cells)
          ∧ occupied_neighbours (cols - 1) (rows - 1) cells p = 3)).
Proof.
  intros HW HH Hwf Hkeys Hp.
  assert (dims_ok cols rows) as Hdims by (split; lia).
  destruct (compute_life_lives cols rows Hdims cells gen Hwf)
    as (out & Hrun & _ & Hout).
  exists out. split; [done|].
  rewrite <- mem_true_keys, mem_get, Hout, lives_is_Some.
  rewrite count_occupied_neighbours, mem_true_keys, mem_false_keys.
  split.
  - intros [?|(? & _ & ?)]; [by left|by right].
  - intros [?|[? ?]]; [by left|]. right. split_and!; try done.
    by apply on_torus_align.
Qed.

Lemma step_follows_life_rule_witness :
  0 < 7 - 1 ∧ 0 < 7 - 1
  ∧ population_wf (blinker 0)
  ∧ Forall (on_torus (7 - 1) (7 - 1)) (Dict.keys (blinker 0))
  ∧ on_torus (7 - 1) (7 - 1) (mkPoint 1 1)
  ∧ (∃ out,
       compute_life 7 7 (blinker 0) 0 = Some out
       ∧ (mkPoint 1 1 ∈ Dict.keys out ↔
          (mkPoint 1 1 ∈ Dict.keys (blinker 0)
           ∧ (occupied_neighbours (7 - 1) (7 - 1) (blinker 0) (mkPoint 1 1) = 2
              ∨ occupied_neighbours (7 - 1) (7 - 1) (blinker 0) (mkPoint 1 1)
                = 3))
          ∨ ((mkPoint 1 1 ∉ Dict.keys (blinker 0))
             ∧ occupied_neighbours (7 - 1) (7 - 1) (blinker 0) (mkPoint 1 1)
               = 3)))
  ∧ compute_life 7 7 (blinker 0) 0
    = Some [ (mkPoint 1 5, mkCell (mkPoint 1 5) 1);
             (mkPoint 1 1, mkCell (mkPoint 1 1) 1);
             (mkPoint 1 0, mkCell (mkPoint 1 0) 0) ]
  ∧ occupied_neighbours (7 - 1) (7 - 1) (blinker 0) (mkPoint 1 1) = 3
  ∧ occupied_neighbours (7 - 1) (7 - 1) (blinker 0) (mkPoint 0 0) = 1.
Proof.
  assert (on_torus (7 - 1) (7 - 1) (mkPoint 1 1)) as Hp
    by (unfold on_torus; simpl; lia).
  split; [reflexivity|]. split; [reflexivity|]. split; [apply blinker_wf|].
  split; [apply blinker_on_torus|]. split; [exact Hp|].
  split; [|split; [vm_compute; reflexivity|split; vm_compute; reflexivity]].
  apply (step_follows_life_rule 7 7 (blinker 0) 0 (mkPoint 1 1));
    [reflexivity|reflexivity|apply blinker_wf|apply blinker_on_torus|exact Hp].
Defined.

(** C2. For positive domain dimensions [W] and [H] (the moduli of
    [align_point], that is [cols - 1] and [rows - 1]) and every integer
    point, [align_point] is idempotent and lands in [0,W) x [0,H), also from
    negative coordinates; on the 10 x 10 domain it sends (-1,-1) to (9,9). *)
Theorem align_point_idempotent W H p :
  0 < W → 0 < H →
  (∃ q, align_point (W + 1) (H + 1) p = Some q
        ∧ align_point (W + 1) (H + 1) q = Some q
        ∧ 0 ≤ x q < W ∧ 0 ≤ y q < H
        ∧ x q = ((x p `mod` W) + W) `mod` W
        ∧ y q = ((y p `mod` H) + H) `mod` H)
  ∧ align_point 11 11 (mkPoint (-1) (-1)) = Some (mkPoint 9 9).
Proof.
  intros HW HH. split; [|reflexivity].
  assert (dims_ok (W + 1) (H + 1)) as Hdims by (split; lia).
  exists (align (W + 1) (H + 1) p).
  rewrite !align_point_ok, align_idem by done.
  unfold align; simpl.
  replace (W + 1 - 1) with W by lia. replace (H + 1 - 1) with H by lia.
  pose proof (Z.mod_pos_bound (x p) W HW).
  pose proof (Z.mod_pos_bound (y p) H HH).
  split_and!; try done; try lia.
  - rewrite <- (Z.mul_1_l W) at 3. rewrite Z.mod_add by lia.
    by rewrite Z.mod_mod by lia.
  - rewrite <- (Z.mul_1_l H) at 3. rewrite Z.mod_add by lia.
    by rewrite Z.mod_mod by lia.
Qed.

Lemma align_point_idempotent_witness :
  0 < 10 ∧ 0 < 10
  ∧ (∃ q, align_point (10 + 1) (10 + 1) (mkPoint (-13) 27) = Some q
          ∧ align_point (10 + 1) (10 + 1) q = Some q
          ∧ 0 ≤ x q < 10 ∧ 0 ≤ y q < 10
          ∧ x q = ((x (mkPoint (-13) 27) `mod` 10) + 10) `mod` 10
          ∧ y q = ((y (mkPoint (-13) 27) `mod` 10) + 10) `mod` 10)
  ∧ align_point 11 11 (mkPoint (-1) (-1)) = Some (mkPoint 9 9).
Proof.
  split; [reflexivity|]. split; [reflexivity|].
  apply (align_point_idempotent 10 10 (mkPoint (-13) 27)); reflexivity.
Defined.

(** C8. The empty population is a fixed point of the step function, for
    every generation number (and whatever the dimensions: the loop body,
    which alone can raise, never runs). *)
Theorem empty_population_fixed_point cols rows gen :
  compute_life cols rows Dict.empty gen = Some Dict.empty.
Proof. reflexivity. Qed.

(** C5. The next population consists exactly of the surviving cells, carried
    over with their [Cell] value unchanged (same position, same generation
    number), and of the newly born cells, whose generation number is
    [gen + 1]; it holds nothing else.  The surviving cells are the entries of
    the input with 2 or 3 occupied neighbours on the torus, the newly born
    cells sit at the positions of the torus that are not keys of the input
    and have exactly 3; the neighbours are counted by [occupied_neighbours],
    which does not go through the program. *)
Theorem step_output_cells cols rows cells gen :
  0 < cols - 1 → 0 < rows - 1 →
  population_wf cells →
  Forall (on_torus (cols - 1) (rows - 1)) (Dict.keys cells) →
  ∃ out,
    compute_life cols rows cells gen = Some out
    ∧ population_wf out
    ∧ ∀ p c,
        (p, c) ∈ out ↔
        ((p, c) ∈ cells
         ∧ (occupied_neighbours (cols - 1) (rows - 1) cells p = 2
            ∨ occupied_neighbours (cols - 1) (rows - 1) cells p = 3))
        ∨ ((p ∉ Dict.keys cells) ∧ on_torus (cols - 1) (rows - 1) p
           ∧ occupied_neighbours (cols - 1) (rows - 1) cells p = 3
           ∧ c = mkCell p (gen + 1)).
Proof.
  intros HW HH Hwf Hkeys.
  assert (dims_ok cols rows) as Hdims by (split; lia).
  destruct (compute_life_lives cols rows Hdims cells gen Hwf)
    as (out & Hrun & Hwf' & Hout).
  exists out. split_and!; [done|done|].
  intros p c.
  assert ((p, c) ∈ out ↔ Dict.get p out = Some c) as ->.
  { split; [apply elem_of_get, Hwf'|apply get_elem_of]. }
  assert ((p, c) ∈ cells ↔ Dict.get p cells = Some c) as ->.
  { split; [apply elem_of_get, Hwf|apply get_elem_of]. }
  rewrite Hout, lives_Some, count_occupied_neighbours.
  rewrite get_None_mem, mem_false_keys.
  split.
  - intros [?|(? & ? & ? & ?)]; [by left|].
    right. split_and!; try done. by apply align_on_torus.
  - intros [?|(? & ? & ? & ?)]; [by left|].
    right. split_and!; try done. by apply on_torus_align.
Qed.

Lemma step_output_cells_witness :
  0 < 7 - 1 ∧ 0 < 7 - 1
  ∧ population_wf (blinker 0)
  ∧ Forall (on_torus (7 - 1) (7 - 1)) (Dict.keys (blinker 0))
  ∧ (∃ out,
       compute_life 7 7 (blinker 0) 4 = Some out
       ∧ population_wf out
       ∧ ∀ p c,
           (p, c) ∈ out ↔
           ((p, c) ∈ blinker 0
            ∧ (occupied_neighbours (7 - 1) (7 - 1) (blinker 0) p = 2
               ∨ occupied_neighbours (7 - 1) (7 - 1) (blinker 0) p = 3))
           ∨ ((p ∉ Dict.keys (blinker 0)) ∧ on_torus (7 - 1) (7 - 1) p
              ∧ occupied_neighbours (7 - 1) (7 - 1) (blinker 0) p = 3
              ∧ c = mkCell p (4 + 1)))
  ∧ compute_life 7 7 (blinker 0) 4
    = Some [ (mkPoint 1 5, mkCell (mkPoint 1 5) 5);
             (mkPoint 1 1, mkCell (mkPoint 1 1) 5);
             (mkPoint 1 0, mkCell (mkPoint 1 0) 0) ]
  ∧ occupied_neighbours (7 - 1) (7 - 1) (blinker 0) (mkPoint 1 0) = 2
  ∧ occupied_neighbours (7 - 1) (7 - 1) (blinker 0) (mkPoint 1 5) = 3.
Proof.
  split; [reflexivity|]. split; [reflexivity|]. split; [apply blinker_wf|].
  split; [apply blinker_on_torus|].
  split; [|split; [vm_compute; reflexivity|split; vm_compute; reflexivity]].
  apply (step_output_cells 7 7 (blinker 0) 4);
    [reflexivity|reflexivity|apply blinker_wf|apply blinker_on_torus].
Defined.

(** C10. Locality: every key of the next population is a key of the input
    population or the [align_point] image of one of the eight neighbour
    offsets of a key of the input population. *)
Theorem step_locality cols rows cells gen :
  dims_ok cols rows → population_wf cells →
  ∃ out,
    compute_life cols rows cells gen = Some out
    ∧ ∀ p, p ∈ Dict.keys out →
        p ∈ Dict.keys cells
        ∨ ∃ k d, k ∈ Dict.keys cells ∧ d ∈ dirs
                 ∧ align_point cols rows (shift k d) = Some p.
Proof.
  intros Hdims Hwf.
  destruct (compute_life_lives cols rows Hdims cells gen Hwf)
    as (out & Hrun & _ & Hout).
  exists out. split; [done|]. intros p Hp.
  apply mem_true_keys, mem_get in Hp. rewrite Hout in Hp.
  apply lives_is_Some in Hp as [[Hm _]|(_ & Hal & H3)].
  - left. by apply mem_true_keys.
  - right.
    destruct (counted_is_neighbour cols rows Hdims p cells Hal)
      as (k & d & ? & ? & Hkd); [lia|].
    exists k, d. split_and!; try done. rewrite align_point_ok by done.
    by f_equal.
Qed.

Lemma step_locality_witness :
  dims_ok 7 7 ∧ population_wf (blinker 0)
  ∧ ∃ out,
      compute_life 7 7 (blinker 0) 0 = Some out
      ∧ ∀ p, p ∈ Dict.keys out →
          p ∈ Dict.keys (blinker 0)
          ∨ ∃ k d, k ∈ Dict.keys (blinker 0) ∧ d ∈ dirs
                   ∧ align_point 7 7 (shift k d) = Some p.
Proof.
  split_and!; [apply dims_ok_7|apply blinker_wf|].
  apply (step_locality 7 7 (blinker 0) 0); [apply dims_ok_7|apply blinker_wf].
Defined.

(** C9. With [cols >= 2] and [rows >= 2], [align_point] returns coordinates
    in [0, cols-1) x [0, rows-1) for every integer point: the x-coordinate
    [cols - 1] and the y-coordinate [rows - 1] are never produced, so no cell
    born in a step lies in the last column or the last row of the
    [cols] x [rows] screen. *)
Theorem align_point_misses_last_line cols rows p cells gen :
  2 ≤ cols → 2 ≤ rows → population_wf cells →
  (∃ q, align_point cols rows p = Some q
        ∧ 0 ≤ x q < cols - 1 ∧ 0 ≤ y q < rows - 1
        ∧ x q ≠ cols - 1 ∧ y q ≠ rows - 1)
  ∧ ∃ out, compute_life cols rows cells gen = Some out
           ∧ ∀ b, Dict.mem b out = true → Dict.mem b cells = false →
               (0 ≤ x b < cols - 1 ∧ 0 ≤ y b < rows - 1)
               ∧ x b ≠ cols - 1 ∧ y b ≠ rows - 1.
Proof.
  intros Hc Hr Hwf.
  assert (dims_ok cols rows) as Hdims by (split; lia).
  assert (∀ a, 0 ≤ x (align cols rows a) < cols - 1
               ∧ 0 ≤ y (align cols rows a) < rows - 1) as Hrange.
  { intros a. unfold align; simpl.
    split; apply Z.mod_pos_bound; lia. }
  split.
  - exists (align cols rows p). split; [by apply align_point_ok|].
    specialize (Hrange p). lia.
  - destruct (compute_life_lives cols rows Hdims cells gen Hwf)
      as (out & Hrun & _ & Hout).
    exists out. split; [done|]. intros b Hb Hdead.
    apply mem_get in Hb. rewrite Hout in Hb.
    apply lives_is_Some in Hb as [[Hm _]|(_ & Hal & _)]; [congruence|].
    specialize (Hrange b). rewrite Hal in Hrange. lia.
Qed.

Lemma align_point_misses_last_line_witness :
  2 ≤ 7 ∧ 2 ≤ 7 ∧ population_wf (blinker 0)
  ∧ (∃ q, align_point 7 7 (mkPoint 6 (-1)) = Some q
          ∧ 0 ≤ x q < 7 - 1 ∧ 0 ≤ y q < 7 - 1
          ∧ x q ≠ 7 - 1 ∧ y q ≠ 7 - 1)
  ∧ ∃ out, compute_life 7 7 (blinker 0) 0 = Some out
           ∧ ∀ b, Dict.mem b out = true → Dict.mem b (blinker 0) = false →
               (0 ≤ x b < 7 - 1 ∧ 0 ≤ y b < 7 - 1)
               ∧ x b ≠ 7 - 1 ∧ y b ≠ 7 - 1.
Proof.
  split; [discriminate|]. split; [discriminate|]. split; [apply blinker_wf|].
  apply (align_point_misses_last_line 7 7 (mkPoint 6 (-1)) (blinker 0) 0);
    [discriminate|discriminate|apply blinker_wf].
Defined.

(** C3. On a [W] x [H] domain a living cell at (0,0) counts a living cell at
    [(W-1, H-1)] among its eight neighbours: that cell is the neighbour in
    direction (-1,-1), it is part of the total of [num_cell_neighbors] at
    (0,0) (which is at least 1, and at least one more than in any population
    that differs only by lacking that cell), and [check_neighbors] returns
    that same total for the cell at (0,0). *)
Theorem wraparound_neighbor_counted W H cells c proc :
  0 < W → 0 < H →
  Dict.mem (mkPoint (W - 1) (H - 1)) cells = true →
  pos c = mkPoint 0 0 → cache_ok cells proc →
  (-1, -1) ∈ dirs
  ∧ align_point (W + 1) (H + 1) (shift (mkPoint 0 0) (-1, -1))
    = Some (mkPoint (W - 1) (H - 1))
  ∧ ∃ n,
      num_cell_neighbors (W + 1) (H + 1) (mkPoint 0 0) cells = Some n
      ∧ 1 ≤ n ≤ 8
      ∧ (∃ r, check_neighbors (W + 1) (H + 1) c cells proc = Some r
              ∧ cn_n r = n)
      ∧ ∀ without,
          Dict.mem (mkPoint (W - 1) (H - 1)) without = false →
          (∀ q, q ≠ mkPoint (W - 1) (H - 1) →
                Dict.mem q without = Dict.mem q cells) →
          ∃ m, num_cell_neighbors (W + 1) (H + 1) (mkPoint 0 0) without
               = Some m
               ∧ m + 1 ≤ n.
Proof.
  intros HW HH Hq Hc Hok.
  assert (dims_ok (W + 1) (H + 1)) as Hdims by (split; lia).
  assert (align (W + 1) (H + 1) (shift (mkPoint 0 0) (-1, -1))
          = mkPoint (W - 1) (H - 1)) as Hal.
  { unfold align, shift; simpl.
    replace (W + 1 - 1) with W by lia. replace (H + 1 - 1) with H by lia.
    by rewrite !mod_minus_one. }
  assert (∀ d, count_dirs (W + 1) (H + 1) dirs (mkPoint 0 0) d
               = occ d (mkPoint (W - 1) (H - 1))
                 + count_dirs (W + 1) (H + 1) (tail dirs) (mkPoint 0 0) d)
    as Hsplit.
  { intros d. unfold dirs at 1. cbn [count_dirs]. by rewrite Hal. }
  split; [apply list_elem_of_here|].
  split; [by rewrite align_point_ok, Hal|].
  exists (count (W + 1) (H + 1) (mkPoint 0 0) cells).
  split_and!.
  - by apply num_cell_neighbors_ok.
  - unfold count. rewrite Hsplit. unfold occ at 1. rewrite Hq.
    pose proof (count_dirs_bounds (W + 1) (H + 1) (tail dirs) (mkPoint 0 0) cells).
    lia.
  - apply count_bounds.
  - destruct (check_neighbors_ok (W + 1) (H + 1) Hdims cells c proc Hok)
      as (r & Hrun & Hn & _).
    exists r. by rewrite Hn, Hc.
  - intros without Hgone Hsame.
    exists (count (W + 1) (H + 1) (mkPoint 0 0) without).
    split; [by apply num_cell_neighbors_ok|].
    unfold count. rewrite !Hsplit.
    assert (occ cells (mkPoint (W - 1) (H - 1)) = 1) as ->
      by (unfold occ; by rewrite Hq).
    assert (occ without (mkPoint (W - 1) (H - 1)) = 0) as ->
      by (unfold occ; by rewrite Hgone).
    pose proof (count_dirs_mono (W + 1) (H + 1) (tail dirs) (mkPoint 0 0)
                  without cells) as Hmono.
    enough (∀ q, occ without q ≤ occ cells q) by (specialize (Hmono ltac:(done)); lia).
    intros q. unfold occ.
    destruct (decide (q = mkPoint (W - 1) (H - 1))) as [->|Hne].
    + rewrite Hq, Hgone. lia.
    + rewrite (Hsame q Hne). lia.
Qed.

Lemma wraparound_neighbor_counted_witness :
  let cells := [ (mkPoint 5 5, mkCell (mkPoint 5 5) 0);
                 (mkPoint 0 0, mkCell (mkPoint 0 0) 0) ] in
  let c := mkCell (mkPoint 0 0) 0 in
  0 < 6 ∧ 0 < 6
  ∧ Dict.mem (mkPoint (6 - 1) (6 - 1)) cells = true
  ∧ pos c = mkPoint 0 0 ∧ cache_ok cells ∅
  ∧ (-1, -1) ∈ dirs
  ∧ align_point (6 + 1) (6 + 1) (shift (mkPoint 0 0) (-1, -1))
    = Some (mkPoint (6 - 1) (6 - 1))
  ∧ ∃ n,
      num_cell_neighbors (6 + 1) (6 + 1) (mkPoint 0 0) cells = Some n
      ∧ 1 ≤ n ≤ 8
      ∧ (∃ r, check_neighbors (6 + 1) (6 + 1) c cells ∅ = Some r
              ∧ cn_n r = n)
      ∧ ∀ without,
          Dict.mem (mkPoint (6 - 1) (6 - 1)) without = false →
          (∀ q, q ≠ mkPoint (6 - 1) (6 - 1) →
                Dict.mem q without = Dict.mem q cells) →
          ∃ m, num_cell_neighbors (6 + 1) (6 + 1) (mkPoint 0 0) without
               = Some m
               ∧ m + 1 ≤ n.
Proof.
  intros cells c.
  split; [reflexivity|]. split; [reflexivity|]. split; [reflexivity|].
  split; [reflexivity|]. split; [apply cache_ok_empty|].
  apply (wraparound_neighbor_counted 6 6 cells c ∅);
    [reflexivity|reflexivity|reflexivity|reflexivity|apply cache_ok_empty].
Defined.

(** C4. The step function is deterministic and independent of the order in
    which the living cells are visited: on any two orderings of the same
    population it returns the same mapping, position by position and cell
    value by cell value (and it raises on one exactly when it raises on the
    other). *)
Theorem step_order_independent cols rows cells cells' gen :
  population_wf cells → cells ≡ₚ cells' →
  match compute_life cols rows cells gen, compute_life cols rows cells' gen with
  | Some out, Some out' => same_mapping out out' ∧ out ≡ₚ out'
  | None, None => True
  | _, _ => False
  end.
Proof.
  intros Hwf Hperm.
  pose proof (wf_Permutation _ _ Hwf Hperm) as Hwf'.
  destruct (decide (cols - 1 ≠ 0 ∧ rows - 1 ≠ 0)) as [Hdims|Hbad].
  - destruct (compute_life_lives cols rows Hdims cells gen Hwf)
      as (out & -> & Hwo & Hout).
    destruct (compute_life_lives cols rows Hdims cells' gen Hwf')
      as (out' & -> & Hwo' & Hout').
    assert (same_mapping out out') as Hsame.
    { intros p. rewrite Hout, Hout'. apply lives_ext.
      intros q. apply get_Permutation; [apply Hwf|done]. }
    split; [done|]. by apply same_mapping_Permutation.
  - destruct cells as [|kc cells].
    + apply Permutation_nil_l in Hperm. subst cells'.
      change (same_mapping (@nil (Point * Cell)) [] ∧ @nil (Point * Cell) ≡ₚ []).
      by split.
    + rewrite !compute_life_undefined; try done.
      intros ->. by apply Permutation_nil_r in Hperm.
Qed.

Lemma step_order_independent_witness :
  let cells' := [ (mkPoint 1 0, mkCell (mkPoint 1 0) 0);
                  (mkPoint 0 0, mkCell (mkPoint 0 0) 0);
                  (mkPoint 2 0, mkCell (mkPoint 2 0) 0) ] in
  population_wf (blinker 0) ∧ blinker 0 ≡ₚ cells'
  ∧ match compute_life 7 7 (blinker 0) 0, compute_life 7 7 cells' 0 with
    | Some out, Some out' => same_mapping out out' ∧ out ≡ₚ out'
    | None, None => True
    | _, _ => False
    end.
Proof.
  intros cells'.
  split; [apply blinker_wf|]. split; [apply perm_swap|].
  apply (step_order_independent 7 7 (blinker 0) cells' 0);
    [apply blinker_wf|apply perm_swap].
Defined.

(** C7. During one run of the step function the cache obeys an invariant at
    every point: before and after every probe (cell [i], direction [j]) the
    cached boolean of a position tells whether the position is a key of the
    input population; a probe writes the cache only at a position that is
    absent from it, so a position is inserted at most once and no value is
    ever overwritten; the cache starts empty, and the cache left by one cell
    is the one the next cell starts from. *)
Theorem cache_invariant cols rows cells gen i j cell d :
  dims_ok cols rows →
  Dict.values cells !! i = Some cell → dirs !! j = Some d →
  ∃ proc np proc',
    cache_at cols rows cells gen i j = Some proc
    ∧ align_point cols rows (shift (pos cell) d) = Some np
    ∧ cache_at cols rows cells gen i (S j) = Some proc'
    ∧ cache_ok cells proc ∧ cache_ok cells proc'
    ∧ match proc !! np with
      | Some _ => proc' = proc
      | None => proc' = <[np := Dict.mem np cells]> proc
      end
    ∧ proc ⊆ proc'
    ∧ (∀ q, q ≠ np → proc' !! q = proc !! q)
    ∧ cache_at cols rows cells gen 0 0 = Some ∅
    ∧ cache_at cols rows cells gen i (length dirs)
      = cache_at cols rows cells gen (S i) 0
    ∧ ∃ st, compute_life_loop cols rows (Dict.values cells) cells gen
              (∅, Dict.empty) = Some st
            ∧ cache_at cols rows cells gen (length (Dict.values cells)) 0
              = Some st.1.
Proof.
  intros Hdims Hi Hj.
  destruct (compute_life_loop_cache cols rows (take i (Dict.values cells))
              cells gen (∅, Dict.empty) Hdims (cache_ok_empty cells))
    as (st & Hrun & Hok).
  destruct (check_neighbors_loop_ok cols rows Hdims cells (take j dirs) cell
              (mkCheck 0 [] st.1) Hok)
    as (r & bs & Hprobe & _ & _ & Hokr & _).
  set (np := align cols rows (shift (pos cell) d)).
  exists (cn_proc r), np, (proc_probe cells (cn_proc r) np).
  assert (cache_at cols rows cells gen i j = Some (cn_proc r)) as Hat.
  { unfold cache_at. rewrite Hrun. cbn [mbind option_bind].
    rewrite Hi, Hprobe. done. }
  assert (cache_at cols rows cells gen i (S j)
          = Some (proc_probe cells (cn_proc r) np)) as Hat'.
  { unfold cache_at. rewrite Hrun. cbn [mbind option_bind]. rewrite Hi.
    rewrite (take_S_r _ _ _ Hj), check_neighbors_loop_snoc, Hprobe.
    cbn [mbind option_bind]. by rewrite check_neighbors_body_ok. }
  split_and!; try done.
  - by apply align_point_ok.
  - by apply probe_cache_ok.
  - unfold proc_probe. by destruct (cn_proc r !! np).
  - apply map_subseteq_spec. intros q b. by apply probe_keeps.
  - intros q Hq. rewrite probe_lookup by done. by rewrite decide_False.
  - unfold cache_at. rewrite take_0. cbn [compute_life_loop mbind option_bind].
    by destruct (Dict.values cells !! 0%nat).
  - destruct (check_neighbors_ok cols rows Hdims cells cell st.1 Hok)
      as (r' & Hcheck & _).
    unfold cache_at at 1. rewrite Hrun. cbn [mbind option_bind]. rewrite Hi.
    rewrite firstn_all. fold (check_neighbors cols rows cell cells st.1).
    rewrite Hcheck. cbn [mbind option_bind].
    unfold cache_at. rewrite (take_S_r _ _ _ Hi), compute_life_loop_snoc, Hrun.
    cbn [mbind option_bind]. unfold compute_life_body. rewrite Hcheck.
    cbn [mbind option_bind fst snd take check_neighbors_loop].
    by destruct (Dict.values cells !! S i).
  - destruct (compute_life_loop_cache cols rows (Dict.values cells)
                cells gen (∅, Dict.empty) Hdims (cache_ok_empty cells))
      as (st' & Hrun' & _).
    exists st'. split; [done|]. unfold cache_at.
    rewrite firstn_all, Hrun'. cbn [mbind option_bind].
    by rewrite lookup_ge_None_2.
Qed.

Lemma cache_invariant_witness :
  dims_ok 7 7
  ∧ Dict.values (blinker 0) !! 1%nat = Some (mkCell (mkPoint 1 0) 0)
  ∧ dirs !! 2%nat = Some (-1, 1)
  ∧ ∃ proc np proc',
      cache_at 7 7 (blinker 0) 0 1 2 = Some proc
      ∧ align_point 7 7 (shift (pos (mkCell (mkPoint 1 0) 0)) (-1, 1)) = Some np
      ∧ cache_at 7 7 (blinker 0) 0 1 (S 2) = Some proc'
      ∧ cache_ok (blinker 0) proc ∧ cache_ok (blinker 0) proc'
      ∧ match proc !! np with
        | Some _ => proc' = proc
        | None => proc' = <[np := Dict.mem np (blinker 0)]> proc
        end
      ∧ proc ⊆ proc'
      ∧ (∀ q, q ≠ np → proc' !! q = proc !! q)
      ∧ cache_at 7 7 (blinker 0) 0 0 0 = Some ∅
      ∧ cache_at 7 7 (blinker 0) 0 1 (length dirs)
        = cache_at 7 7 (blinker 0) 0 (S 1) 0
      ∧ ∃ st, compute_life_loop 7 7 (Dict.values (blinker 0)) (blinker 0) 0
                (∅, Dict.empty) = Some st
              ∧ cache_at 7 7 (blinker 0) 0 (length (Dict.values (blinker 0))) 0
                = Some st.1.
Proof.
  split; [apply dims_ok_7|]. split; [reflexivity|]. split; [reflexivity|].
  apply (cache_invariant 7 7 (blinker 0) 0 1 2 (mkCell (mkPoint 1 0) 0) (-1, 1));
    [apply dims_ok_7|reflexivity|reflexivity].
Defined.

(** C6. A horizontal blinker at (0,0), (1,0), (2,0), on a domain at least 5
    wide and 5 high, becomes after one step exactly the vertical triple at
    the normalized positions of (1,-1), (1,0), (1,1), and after a second step
    exactly the three original positions again. *)
Theorem blinker_oscillates cols rows cells gen :
  5 ≤ cols - 1 → 5 ≤ rows - 1 →
  population_wf cells →
  Dict.keys cells ≡ₚ [mkPoint 0 0; mkPoint 1 0; mkPoint 2 0] →
  ∃ up mid down out1 out2,
    align_point cols rows (mkPoint 1 (-1)) = Some up
    ∧ align_point cols rows (mkPoint 1 0) = Some mid
    ∧ align_point cols rows (mkPoint 1 1) = Some down
    ∧ up = mkPoint 1 (rows - 2) ∧ mid = mkPoint 1 0 ∧ down = mkPoint 1 1
    ∧ compute_life cols rows cells gen = Some out1
    ∧ Dict.keys out1 ≡ₚ [up; mid; down]
    ∧ compute_life cols rows out1 (gen + 1) = Some out2
    ∧ Dict.keys out2 ≡ₚ [mkPoint 0 0; mkPoint 1 0; mkPoint 2 0].
Proof.
  intros HW HH Hwf Hkeys.
  assert (dims_ok cols rows) as Hdims by (split; lia).
  set (K0 := [mkPoint 0 0; mkPoint 1 0; mkPoint 2 0]) in *.
  set (K1 := [mkPoint 1 (-1); mkPoint 1 0; mkPoint 1 1]).
  assert (align cols rows <$> K0 = K0) as HK0.
  { unfold K0. rewrite !fmap_cons, fmap_nil.
    rewrite !align_small by (simpl; lia). done. }
  assert (align cols rows (mkPoint 1 (-1)) = mkPoint 1 (rows - 2)) as Hup.
  { unfold align; simpl.
    rewrite Z.mod_small by lia. rewrite mod_minus_one by lia.
    f_equal. lia. }
  assert (align cols rows (mkPoint 1 0) = mkPoint 1 0) as Hmid
    by (apply align_small; simpl; lia).
  assert (align cols rows (mkPoint 1 1) = mkPoint 1 1) as Hdown
    by (apply align_small; simpl; lia).
  assert (align cols rows <$> K1
          = [mkPoint 1 (rows - 2); mkPoint 1 0; mkPoint 1 1]) as HK1.
  { unfold K1. rewrite !fmap_cons, fmap_nil. by rewrite Hup, Hmid, Hdown. }
  destruct (compute_life_lives cols rows Hdims cells gen Hwf)
    as (out1 & Hrun1 & Hwf1 & Hout1).
  destruct (compute_life_lives cols rows Hdims out1 (gen + 1) Hwf1)
    as (out2 & Hrun2 & Hwf2 & Hout2).
  assert (∀ p, Dict.mem p out1 = true ↔ p ∈ align cols rows <$> K1) as Hmem1.
  { intros p. rewrite mem_get, Hout1.
    rewrite (planar_agreement cols rows ltac:(lia) ltac:(lia) K0 0 2 0 0).
    - apply elem_of_fmap_ext, planar_next_horizontal.
    - unfold K0, in_box. repeat (apply Forall_cons; split; [simpl; lia|]).
      apply Forall_nil_2.
    - lia.
    - intros q. by rewrite mem_true_keys, Hkeys, HK0. }
  assert (∀ p, Dict.mem p out2 = true ↔ p ∈ K0) as Hmem2.
  { intros p. rewrite mem_get, Hout2.
    rewrite (planar_agreement cols rows ltac:(lia) ltac:(lia) K1 1 1 (-1) 1).
    - etrans; [apply elem_of_fmap_ext, planar_next_vertical|].
      fold K0. by rewrite HK0.
    - unfold K1, in_box. repeat (apply Forall_cons; split; [simpl; lia|]).
      apply Forall_nil_2.
    - lia.
    - done. }
  exists (mkPoint 1 (rows - 2)), (mkPoint 1 0), (mkPoint 1 1), out1, out2.
  rewrite !align_point_ok by done.
  split_and!; try done; try by f_equal.
  - apply NoDup_Permutation.
    + apply Hwf1.
    + repeat (apply NoDup_cons; split;
              [rewrite ?elem_of_cons, elem_of_nil; intros H;
               repeat destruct H as [H|H]; (injection H; lia) || exact H|]).
      apply NoDup_nil_2.
    + intros p. by rewrite <- mem_true_keys, Hmem1, HK1.
  - apply NoDup_Permutation.
    + apply Hwf2.
    + unfold K0.
      repeat (apply NoDup_cons; split;
              [rewrite ?elem_of_cons, elem_of_nil; intros H;
               repeat destruct H as [H|H]; discriminate H || exact H|]).
      apply NoDup_nil_2.
    + intros p. by rewrite <- mem_true_keys, Hmem2.
Qed.

Lemma blinker_oscillates_witness :
  5 ≤ 7 - 1 ∧ 5 ≤ 7 - 1 ∧ population_wf (blinker 0)
  ∧ Dict.keys (blinker 0) ≡ₚ [mkPoint 0 0; mkPoint 1 0; mkPoint 2 0]
  ∧ ∃ up mid down out1 out2,
      align_point 7 7 (mkPoint 1 (-1)) = Some up
      ∧ align_point 7 7 (mkPoint 1 0) = Some mid
      ∧ align_point 7 7 (mkPoint 1 1) = Some down
      ∧ up = mkPoint 1 (7 - 2) ∧ mid = mkPoint 1 0 ∧ down = mkPoint 1 1
      ∧ compute_life 7 7 (blinker 0) 0 = Some out1
      ∧ Dict.keys out1 ≡ₚ [up; mid; down]
      ∧ compute_life 7 7 out1 (0 + 1) = Some out2
      ∧ Dict.keys out2 ≡ₚ [mkPoint 0 0; mkPoint 1 0; mkPoint 2 0].
Proof.
  split; [discriminate|]. split; [discriminate|]. split; [apply blinker_wf|].
  split; [reflexivity|].
  apply (blinker_oscillates 7 7 (blinker 0) 0);
    [discriminate|discriminate|apply blinker_wf|reflexivity].
Defined.

(** ** Further properties of the code *)

(** The R-pentomino of [main] on a 30 x 20 screen, two iterations on: the
    [addch] calls of the third frame. *)
Example main_first_frames :
  (st ← run 30 20 2 (main_state 30 20); Some (frame st.1, st.2))
  = Some ([(10, 13, 3); (9, 14, 2); (8, 15, 3); (11, 14, 2); (11, 15, 1);
           (10, 16, 3); (9, 15, 1)], 2).
Proof. vm_compute. reflexivity. Qed.

(** *** [check_neighbors] *)

(** The births appended by the loop of [check_neighbors] are pairwise
    distinct; each was absent from the cache the loop started from and is
    cached as dead in the cache it leaves. *)
Lemma check_neighbors_loop_births cols rows cells ds cell st st' :
  dims_ok cols rows → cache_ok cells (cn_proc st) →
  check_neighbors_loop cols rows ds cell cells st = Some st' →
  ∃ bs, cn_births st' = cn_births st ++ bs
        ∧ NoDup bs
        ∧ ∀ q, q ∈ bs →
            cn_proc st !! q = None ∧ cn_proc st' !! q = Some false.
Proof.
  intros Hdims. revert st. induction ds as [|d ds IH]; intros st Hok Hrun.
  - injection Hrun as <-. exists []. rewrite app_nil_r.
    split_and!; [done|apply NoDup_nil_2|]. by intros q ?%elem_of_nil.
  - cbn [check_neighbors_loop] in Hrun.
    rewrite check_neighbors_body_ok in Hrun by done.
    cbn [mbind option_bind] in Hrun.
    set (np := align cols rows (shift (pos cell) d)) in *.
    set (st1 := mkCheck _ _ _) in *.
    assert (cache_ok cells (cn_proc st1)) as Hok1 by (by apply probe_cache_ok).
    destruct (IH st1 Hok1 Hrun) as (bs' & Hb & Hnd & Hbs').
    destruct (check_neighbors_loop_ok cols rows Hdims cells ds cell st1 Hok1)
      as (st'' & _ & Hrun' & _ & _ & _ & Hkeep & _).
    rewrite Hrun in Hrun'. injection Hrun' as <-.
    exists (probe_births cols rows cells (cn_proc st) np ++ bs').
    split_and!.
    + rewrite Hb. unfold st1; cbn [cn_births]. by rewrite app_assoc.
    + apply NoDup_app. split_and!; [|  |done].
      * unfold probe_births. destruct (cn_proc st !! np); [apply NoDup_nil_2|].
        destruct (Dict.mem np cells); [apply NoDup_nil_2|].
        case_decide; [apply NoDup_singleton|apply NoDup_nil_2].
      * intros q (-> & Hq & _)%elem_of_probe_births [Hq1 _]%Hbs'.
        unfold st1 in Hq1; cbn [cn_proc] in Hq1.
        rewrite probe_lookup in Hq1 by done. by rewrite decide_True in Hq1.
    + intros q [(-> & Hq & Hm & _)%elem_of_probe_births|Hin]%elem_of_app.
      * split; [done|]. apply Hkeep. unfold st1; cbn [cn_proc].
        rewrite probe_lookup by done. rewrite decide_True by done.
        by rewrite Hm.
      * destruct (Hbs' q Hin) as [Hq1 Hq']. split; [|done].
        unfold st1 in Hq1; cbn [cn_proc] in Hq1.
        destruct (cn_proc st !! q) as [b|] eqn:Hq; [|done].
        by rewrite (probe_keeps cells _ np q b Hok Hq) in Hq1.
Qed.

(** X1. The two counting paths agree: whatever the cache holds (as long as
    it is truthful about the input), the count [check_neighbors] returns for a
    cell is the one [num_cell_neighbors] returns for its position, between 0
    and 8; the call leaves a truthful cache that extends the one it got and
    holds all eight neighbours of the cell. *)
Theorem check_neighbors_counts cols rows cell cells proc :
  dims_ok cols rows → cache_ok cells proc →
  ∃ r,
    check_neighbors cols rows cell cells proc = Some r
    ∧ num_cell_neighbors cols rows (pos cell) cells = Some (cn_n r)
    ∧ 0 ≤ cn_n r ≤ 8
    ∧ cache_ok cells (cn_proc r)
    ∧ proc ⊆ cn_proc r
    ∧ ∀ d, d ∈ dirs →
        ∃ np, align_point cols rows (shift (pos cell) d) = Some np
              ∧ cn_proc r !! np = Some (Dict.mem np cells).
Proof.
  intros Hdims Hok.
  destruct (check_neighbors_ok cols rows Hdims cells cell proc Hok)
    as (r & Hrun & Hn & Hok' & Hkeep & Hdom & _).
  exists r. split_and!; try done.
  - by rewrite num_cell_neighbors_ok, Hn.
  - rewrite Hn. apply count_bounds.
  - rewrite Hn. apply count_bounds.
  - by apply map_subseteq_spec.
  - intros d Hd. exists (align cols rows (shift (pos cell) d)).
    split; [by apply align_point_ok|].
    destruct (Hdom (align cols rows (shift (pos cell) d))) as [_ [b Hb]].
    { right. unfold neighbours_in. apply list_elem_of_fmap. by exists d. }
    rewrite Hb. f_equal. by apply Hok'.
Qed.

Lemma check_neighbors_counts_witness :
  dims_ok 7 7 ∧ cache_ok (blinker 0) ∅
  ∧ ∃ r,
      check_neighbors 7 7 (mkCell (mkPoint 1 0) 0) (blinker 0) ∅ = Some r
      ∧ num_cell_neighbors 7 7 (pos (mkCell (mkPoint 1 0) 0)) (blinker 0)
        = Some (cn_n r)
      ∧ 0 ≤ cn_n r ≤ 8
      ∧ cache_ok (blinker 0) (cn_proc r)
      ∧ ∅ ⊆ cn_proc r
      ∧ ∀ d, d ∈ dirs →
          ∃ np, align_point 7 7 (shift (pos (mkCell (mkPoint 1 0) 0)) d)
                = Some np
                ∧ cn_proc r !! np = Some (Dict.mem np (blinker 0)).
Proof.
  split; [apply dims_ok_7|]. split; [apply cache_ok_empty|].
  apply (check_neighbors_counts 7 7 (mkCell (mkPoint 1 0) 0) (blinker 0) ∅);
    [apply dims_ok_7|apply cache_ok_empty].
Defined.

(** X2. The births [check_neighbors] returns are exactly the neighbours of
    the cell that are new to the cache, dead, and have three occupied
    neighbours; no position occurs twice in the list, and each is left in the
    cache as dead. *)
Theorem check_neighbors_births cols rows cell cells proc :
  dims_ok cols rows → cache_ok cells proc →
  ∃ r,
    check_neighbors cols rows cell cells proc = Some r
    ∧ NoDup (cn_births r)
    ∧ (∀ q, q ∈ cn_births r ↔
            (∃ d, d ∈ dirs
                  ∧ align_point cols rows (shift (pos cell) d) = Some q)
            ∧ proc !! q = None ∧ Dict.mem q cells = false
            ∧ num_cell_neighbors cols rows q cells = Some 3)
    ∧ ∀ q, q ∈ cn_births r → cn_proc r !! q = Some false.
Proof.
  intros Hdims Hok.
  destruct (check_neighbors_ok cols rows Hdims cells cell proc Hok)
    as (r & Hrun & _ & _ & _ & _ & Hbs).
  destruct (check_neighbors_loop_births cols rows cells dirs cell
              (mkCheck 0 [] proc) r Hdims Hok Hrun)
    as (bs & Hb & Hnd & Hcached).
  cbn [cn_births cn_proc] in Hb, Hcached. rewrite app_nil_l in Hb.
  exists r. split_and!; [done|by rewrite Hb| |].
  - intros q. rewrite Hbs, num_cell_neighbors_ok by done.
    unfold neighbours_in. rewrite list_elem_of_fmap.
    split.
    + intros ((d & -> & Hd) & ? & ? & ?). split_and!; try done; [|by f_equal].
      exists d. split; [done|]. by apply align_point_ok.
    + intros ((d & Hd & Hal) & ? & ? & [= ?]). split_and!; try done.
      exists d. split; [|done]. rewrite align_point_ok in Hal by done.
      by injection Hal.
  - intros q Hq. rewrite Hb in Hq. by apply Hcached.
Qed.

Lemma check_neighbors_births_witness :
  dims_ok 7 7 ∧ cache_ok (blinker 0) ∅
  ∧ ∃ r,
      check_neighbors 7 7 (mkCell (mkPoint 0 0) 0) (blinker 0) ∅ = Some r
      ∧ NoDup (cn_births r)
      ∧ (∀ q, q ∈ cn_births r ↔
              (∃ d, d ∈ dirs
                    ∧ align_point 7 7 (shift (pos (mkCell (mkPoint 0 0) 0)) d)
                      = Some q)
              ∧ (∅ : gmap Point bool) !! q = None
              ∧ Dict.mem q (blinker 0) = false
              ∧ num_cell_neighbors 7 7 q (blinker 0) = Some 3)
      ∧ ∀ q, q ∈ cn_births r → cn_proc r !! q = Some false.
Proof.
  split; [apply dims_ok_7|]. split; [apply cache_ok_empty|].
  apply (check_neighbors_births 7 7 (mkCell (mkPoint 0 0) 0) (blinker 0) ∅);
    [apply dims_ok_7|apply cache_ok_empty].
Defined.

(** X3. A birth is proposed once per step: the births of a call of
    [check_neighbors] and those of any later call on the same population,
    made on a truthful cache that extends the one the first call left, have
    no position in common. *)
Theorem births_proposed_once cols rows cells cell1 proc1 r1 cell2 proc2 r2 :
  dims_ok cols rows → cache_ok cells proc1 →
  check_neighbors cols rows cell1 cells proc1 = Some r1 →
  cn_proc r1 ⊆ proc2 → cache_ok cells proc2 →
  check_neighbors cols rows cell2 cells proc2 = Some r2 →
  ∀ q, q ∈ cn_births r1 → q ∉ cn_births r2.
Proof.
  intros Hdims Hok1 Hrun1 Hsub Hok2 Hrun2 q Hq1 Hq2.
  destruct (check_neighbors_loop_births cols rows cells dirs cell1
              (mkCheck 0 [] proc1) r1 Hdims Hok1 Hrun1)
    as (bs1 & Hb1 & _ & Hc1).
  destruct (check_neighbors_loop_births cols rows cells dirs cell2
              (mkCheck 0 [] proc2) r2 Hdims Hok2 Hrun2)
    as (bs2 & Hb2 & _ & Hc2).
  cbn [cn_births cn_proc] in *. rewrite app_nil_l in Hb1, Hb2.
  rewrite Hb1 in Hq1. rewrite Hb2 in Hq2.
  destruct (Hc1 q Hq1) as [_ Hcached]. destruct (Hc2 q Hq2) as [Hfresh _].
  rewrite map_subseteq_spec in Hsub. apply Hsub in Hcached. congruence.
Qed.

Lemma births_proposed_once_witness :
  let c1 := mkCell (mkPoint 0 0) 0 in
  let c2 := mkCell (mkPoint 1 0) 0 in
  let none := mkCheck 0 [] ∅ in
  let r1 := default none (check_neighbors 7 7 c1 (blinker 0) ∅) in
  let r2 := default none (check_neighbors 7 7 c2 (blinker 0) (cn_proc r1)) in
  dims_ok 7 7 ∧ cache_ok (blinker 0) ∅
  ∧ check_neighbors 7 7 c1 (blinker 0) ∅ = Some r1
  ∧ cn_proc r1 ⊆ cn_proc r1 ∧ cache_ok (blinker 0) (cn_proc r1)
  ∧ check_neighbors 7 7 c2 (blinker 0) (cn_proc r1) = Some r2
  ∧ ∀ q, q ∈ cn_births r1 → q ∉ cn_births r2.
Proof.
  intros c1 c2 none r1 r2.
  assert (check_neighbors 7 7 c1 (blinker 0) ∅ = Some r1) as H1
    by (vm_compute; reflexivity).
  assert (check_neighbors 7 7 c2 (blinker 0) (cn_proc r1) = Some r2) as H2
    by (vm_compute; reflexivity).
  assert (cache_ok (blinker 0) (cn_proc r1)) as Hok1.
  { destruct (check_neighbors_ok 7 7 dims_ok_7 (blinker 0) c1 ∅
                (cache_ok_empty _)) as (r & Hr & _ & Hok & _).
    replace (cn_proc r1) with (cn_proc r) by congruence. exact Hok. }
  split; [apply dims_ok_7|]. split; [apply cache_ok_empty|].
  split; [exact H1|]. split; [reflexivity|]. split; [exact Hok1|].
  split; [exact H2|].
  apply (births_proposed_once 7 7 (blinker 0) c1 ∅ r1 c2 (cn_proc r1) r2);
    [apply dims_ok_7|apply cache_ok_empty|exact H1|reflexivity|exact Hok1
    |exact H2].
Defined.

(** *** [align_point] and [num_cell_neighbors] *)

Lemma dims_ok_dec cols rows : dims_ok cols rows ∨ (cols = 1 ∨ rows = 1).
Proof. unfold dims_ok. lia. Qed.

Lemma not_dims_ok cols rows : ¬ dims_ok cols rows ↔ cols = 1 ∨ rows = 1.
Proof. unfold dims_ok. lia. Qed.

Lemma count_dirs_align cols rows ds p cells :
  dims_ok cols rows →
  count_dirs cols rows ds (align cols rows p) cells
  = count_dirs cols rows ds p cells.
Proof.
  intros Hdims. induction ds as [|d ds IH]; simpl; [done|].
  by rewrite IH, align_shift_align.
Qed.

(** X4. [align_point] is periodic: moving a point by whole multiples of the
    two moduli does not change its image (nor whether the call raises).  The
    call raises exactly when [cols = 1] or [rows = 1]; otherwise each
    coordinate of the image lies between 0 and the modulus, on the side of
    the modulus: in [0, m) for a positive modulus [m], in (m, 0] for a
    negative one. *)
Theorem align_point_periodic cols rows p a b :
  align_point cols rows
    (mkPoint (x p + a * (cols - 1)) (y p + b * (rows - 1)))
  = align_point cols rows p
  ∧ (align_point cols rows p = None ↔ cols = 1 ∨ rows = 1)
  ∧ ∀ q, align_point cols rows p = Some q →
      (0 < cols - 1 → 0 ≤ x q < cols - 1)
      ∧ (cols - 1 < 0 → cols - 1 < x q ≤ 0)
      ∧ (0 < rows - 1 → 0 ≤ y q < rows - 1)
      ∧ (rows - 1 < 0 → rows - 1 < y q ≤ 0).
Proof.
  destruct (dims_ok_dec cols rows) as [Hdims|Hbad].
  - rewrite !align_point_ok by done. split_and!.
    + unfold align; simpl. destruct Hdims. by rewrite !Z.mod_add.
    + split; [done|]. unfold dims_ok in Hdims. lia.
    + intros q [= <-]. unfold align; simpl. split_and!; intros Hm.
      * by apply Z.mod_pos_bound.
      * by apply Z.mod_neg_bound.
      * by apply Z.mod_pos_bound.
      * by apply Z.mod_neg_bound.
  - apply not_dims_ok in Hbad as Hnot.
    rewrite !align_point_undefined by done. split_and!; try done.
Qed.

(** X5. [num_cell_neighbors] returns a count between 0 and 8, and raises
    exactly when [cols = 1] or [rows = 1]; it sees its argument only through
    [align_point]: two points with the same image have the same count. *)
Theorem num_cell_neighbors_range cols rows p cells :
  (num_cell_neighbors cols rows p cells = None ↔ cols = 1 ∨ rows = 1)
  ∧ (∀ n, num_cell_neighbors cols rows p cells = Some n → 0 ≤ n ≤ 8)
  ∧ ∀ q, align_point cols rows p = align_point cols rows q →
      num_cell_neighbors cols rows p cells
      = num_cell_neighbors cols rows q cells.
Proof.
  destruct (dims_ok_dec cols rows) as [Hdims|Hbad].
  - rewrite num_cell_neighbors_ok by done. split_and!.
    + split; [done|]. unfold dims_ok in Hdims. lia.
    + intros n [= <-]. apply count_bounds.
    + intros q. rewrite !align_point_ok, !num_cell_neighbors_ok by done.
      intros Hal%(inj Some). f_equal. unfold count.
      rewrite <- (count_dirs_align cols rows dirs p) by done.
      rewrite <- (count_dirs_align cols rows dirs q) by done.
      by rewrite Hal.
  - apply not_dims_ok in Hbad as Hnot.
    assert (∀ u, num_cell_neighbors cols rows u cells = None) as Hnone.
    { intros u. unfold num_cell_neighbors, dirs.
      cbn [num_cell_neighbors_loop]. by rewrite !align_point_undefined. }
    rewrite !Hnone. split_and!; try done.
Qed.

(** *** [compute_life] *)

(** X6. [compute_life] raises exactly when a modulus is zero ([cols = 1] or
    [rows = 1]) and the population is not empty; on every other input it
    returns, whatever the dict holds. *)
Theorem compute_life_raises_iff cols rows cells gen :
  compute_life cols rows cells gen = None ↔
  (cols = 1 ∨ rows = 1) ∧ cells ≠ [].
Proof.
  split.
  - intros Hnone. destruct (dims_ok_dec cols rows) as [Hdims|Hbad].
    + destruct (compute_life_loop_cache cols rows (Dict.values cells) cells gen
                  (∅, Dict.empty) Hdims (cache_ok_empty cells))
        as (st & Hrun & _).
      unfold compute_life in Hnone. by rewrite Hrun in Hnone.
    + split; [done|]. by intros ->.
  - intros [Hbad Hne]. apply compute_life_undefined; [|done].
    by apply not_dims_ok.
Qed.

Lemma length_bind_neighbours cols rows (ks : list Point) :
  length (k ← ks; neighbours_in cols rows dirs k) = (8 * length ks)%nat.
Proof.
  induction ks as [|k ks IH]; [done|].
  rewrite bind_cons, length_app, IH. unfold neighbours_in.
  rewrite length_fmap. simpl. lia.
Qed.

(** X7. A step can at most multiply the population by nine: the next
    population holds no more cells than the input has cells and neighbours
    of cells. *)
Theorem step_size_bound cols rows cells gen :
  dims_ok cols rows → population_wf cells →
  ∃ out, compute_life cols rows cells gen = Some out
         ∧ (length out ≤ 9 * length cells)%nat.
Proof.
  intros Hdims Hwf.
  destruct (compute_life_lives cols rows Hdims cells gen Hwf)
    as (out & Hrun & [Hnd _] & Hout).
  exists out. split; [done|].
  assert (Dict.keys out
          ⊆+ Dict.keys cells
             ++ (k ← Dict.keys cells; neighbours_in cols rows dirs k)) as Hsub.
  { apply NoDup_submseteq; [done|]. intros p Hp.
    apply mem_true_keys, mem_get in Hp. rewrite Hout in Hp.
    apply lives_is_Some in Hp as [[Hm _]|(_ & Hal & H3)].
    - apply elem_of_app. left. by apply mem_true_keys.
    - destruct (counted_is_neighbour cols rows Hdims p cells Hal)
        as (k & d & ? & ? & Hkd); [lia|].
      apply elem_of_app. right. apply list_elem_of_bind. exists k.
      split; [|done]. unfold neighbours_in. apply list_elem_of_fmap.
      by exists d. }
  apply submseteq_length in Hsub.
  rewrite length_app, length_bind_neighbours in Hsub.
  unfold Dict.keys in Hsub. rewrite !length_fmap in Hsub. lia.
Qed.

Lemma step_size_bound_witness :
  dims_ok 7 7 ∧ population_wf (blinker 0)
  ∧ ∃ out, compute_life 7 7 (blinker 0) 0 = Some out
           ∧ (length out ≤ 9 * length (blinker 0))%nat.
Proof.
  split; [apply dims_ok_7|]. split; [apply blinker_wf|].
  apply (step_size_bound 7 7 (blinker 0) 0); [apply dims_ok_7|apply blinker_wf].
Defined.

(** *** The seed and the loop of [main] *)

Lemma get_cells_of_points ps g d p :
  Dict.get p (cells_of_points ps g d)
  = if decide (p ∈ ps) then Some (mkCell p g) else Dict.get p d.
Proof.
  revert d. induction ps as [|b ps IH]; intros d; cbn [cells_of_points].
  - case_decide as Hin; [by apply elem_of_nil in Hin|done].
  - rewrite IH, get_set. rewrite (decide_ext _ _ _ _ (elem_of_cons ps p b)).
    destruct (decide (p ∈ ps)) as [Hin|Hin].
    + rewrite decide_True; [done|]. by right.
    + case_decide as Hb; [subst b|].
      * rewrite decide_True; [done|]. by left.
      * rewrite decide_False; [done|]. by intros [?|?].
Qed.

Lemma NoDup_keys_cells_of_points ps g d :
  NoDup (Dict.keys d) → NoDup (Dict.keys (cells_of_points ps g d)).
Proof.
  revert d. induction ps as [|b ps IH]; intros d Hd; simpl; [done|].
  by apply IH, NoDup_keys_set.
Qed.

Lemma keys_cells_of_points ps g d :
  NoDup (Dict.keys d ++ ps) →
  Dict.keys (cells_of_points ps g d) = Dict.keys d ++ ps.
Proof.
  revert d. induction ps as [|b ps IH]; intros d Hnd; cbn [cells_of_points].
  - by rewrite app_nil_r.
  - assert (Dict.mem b d = false) as Hb.
    { apply mem_false_keys. apply NoDup_app in Hnd as (_ & Hdis & _).
      intros Hin. apply (Hdis _ Hin). by left. }
    rewrite IH; rewrite keys_set, Hb, <- app_assoc; done.
Qed.

Lemma seed_t_NoDup o : NoDup (seed_t o).
Proof.
  unfold seed_t, seed. rewrite !fmap_cons, fmap_nil. simpl.
  repeat (apply NoDup_cons; split;
          [rewrite ?elem_of_cons, elem_of_nil; intros H;
           repeat destruct H as [H|H]; (injection H; lia) || exact H|]).
  apply NoDup_nil_2.
Qed.

(** One step, cell by cell: a cell of the next population is a cell of the
    input, unchanged, or a new cell at a position of the domain, stamped with
    the next generation. *)
Lemma compute_life_step_cells cols rows cells g :
  dims_ok cols rows → population_wf cells →
  ∃ out, compute_life cols rows cells g = Some out
         ∧ population_wf out
         ∧ ∀ p c, Dict.get p out = Some c →
             Dict.get p cells = Some c
             ∨ (align cols rows p = p ∧ c = mkCell p (g + 1)).
Proof.
  intros Hdims Hwf.
  destruct (compute_life_lives cols rows Hdims cells g Hwf)
    as (out & Hrun & Hwf' & Hout).
  exists out. split_and!; [done|done|].
  intros p c. rewrite Hout, lives_Some.
  intros [[? _]|(_ & ? & _ & ?)]; [by left|by right].
Qed.

(** The loop keeps what every step keeps. *)
Lemma run_invariant cols rows (P : Dict.t Cell → Z → Prop) n cells g :
  dims_ok cols rows →
  (∀ cells g out, population_wf cells → P cells g →
     compute_life cols rows cells g = Some out → P out (g + 1)) →
  population_wf cells → P cells g →
  ∃ cells',
    run cols rows n (cells, g) = Some (cells', g + Z.of_nat n)
    ∧ population_wf cells' ∧ P cells' (g + Z.of_nat n).
Proof.
  intros Hdims Hstep. revert cells g.
  induction n as [|n IH]; intros cells g Hwf HP.
  - exists cells. cbn [run]. by rewrite Z.add_0_r.
  - cbn [run]. unfold tick. cbn [fst snd].
    destruct (compute_life_step_cells cols rows cells g Hdims Hwf)
      as (out & Hrun & Hwf1 & _).
    rewrite Hrun. cbn [mbind option_bind].
    destruct (IH out (g + 1) Hwf1 (Hstep _ _ _ Hwf HP Hrun))
      as (cells' & Hrun' & Hwf' & HP').
    exists cells'. rewrite Hrun'.
    replace (g + Z.of_nat (S n)) with (g + 1 + Z.of_nat n) by lia. done.
Qed.

(** X8. The loop of [main], from any well-formed population: it never
    raises (the moduli being nonzero), after [n] iterations the generation
    counter has advanced by [n], the population is well-formed again, and
    each of its cells is either a cell of the start population, unchanged at
    its position, or a cell born on the way: at a position of the domain and
    stamped with a generation after the start and no later than the
    counter. *)
Theorem run_cells cols rows n cells g :
  dims_ok cols rows → population_wf cells →
  ∃ cells',
    run cols rows n (cells, g) = Some (cells', g + Z.of_nat n)
    ∧ population_wf cells'
    ∧ ∀ p c, Dict.get p cells' = Some c →
        Dict.get p cells = Some c
        ∨ (in_domain cols rows p ∧ pos c = p ∧ g < gen c ≤ g + Z.of_nat n).
Proof.
  intros Hdims Hwf.
  set (P := fun (cs : Dict.t Cell) (k : Z) =>
              g ≤ k
              ∧ ∀ p c, Dict.get p cs = Some c →
                  Dict.get p cells = Some c
                  ∨ (in_domain cols rows p ∧ pos c = p ∧ g < gen c ≤ k)).
  assert (P cells g) as Hstart.
  { split; [lia|]. intros p c ?. by left. }
  assert (∀ cs k out, population_wf cs → P cs k →
            compute_life cols rows cs k = Some out → P out (k + 1)) as Hkeep.
  { intros cs k out Hwfk [Hk Hcs] Hout.
    destruct (compute_life_step_cells cols rows cs k Hdims Hwfk)
      as (out' & Hout' & _ & Hstep).
    assert (out' = out) as -> by congruence.
    split; [lia|]. intros p c Hc.
    destruct (Hstep p c Hc) as [Hc1|[Hal ->]].
    - destruct (Hcs p c Hc1) as [?|(? & ? & ?)]; [by left|].
      right. split_and!; [done|done|lia..].
    - right. split_and!; [by apply in_domain_align|done|simpl; lia..]. }
  destruct (run_invariant cols rows P n cells g Hdims Hkeep Hwf Hstart)
    as (cells' & Hrun & Hwf' & _ & Hcells').
  by exists cells'.
Qed.

Lemma run_cells_witness :
  dims_ok 7 7 ∧ population_wf (blinker 0)
  ∧ ∃ cells',
      run 7 7 3 (blinker 0, 0) = Some (cells', 0 + Z.of_nat 3)
      ∧ population_wf cells'
      ∧ ∀ p c, Dict.get p cells' = Some c →
          Dict.get p (blinker 0) = Some c
          ∨ (in_domain 7 7 p ∧ pos c = p ∧ 0 < gen c ≤ 0 + Z.of_nat 3).
Proof.
  split; [apply dims_ok_7|]. split; [apply blinker_wf|].
  apply (run_cells 7 7 3 (blinker 0) 0); [apply dims_ok_7|apply blinker_wf].
Defined.

Lemma set_fresh {V} (k : Point) (v : V) (d : Dict.t V) :
  Dict.mem k d = false → Dict.set k v d = d ++ [(k, v)].
Proof.
  unfold Dict.mem. induction d as [|[k' v'] d IH]; simpl; [done|].
  case_decide; [done|]. intros Hk. by rewrite IH.
Qed.

Lemma cells_of_points_fresh ps g d :
  NoDup (Dict.keys d ++ ps) →
  cells_of_points ps g d = d ++ ((fun p => (p, mkCell p g)) <$> ps).
Proof.
  revert d. induction ps as [|b ps IH]; intros d Hnd; cbn [cells_of_points].
  - by rewrite fmap_nil, app_nil_r.
  - assert (Dict.mem b d = false) as Hb.
    { apply mem_false_keys. apply NoDup_app in Hnd as (_ & Hdis & _).
      intros Hin. apply (Hdis _ Hin). by left. }
    rewrite set_fresh by done. rewrite IH.
    + by rewrite fmap_cons, <- app_assoc.
    + unfold Dict.keys in *. rewrite fmap_app, <- app_assoc. done.
Qed.

Lemma seeding_population_aux o g :
  population_wf (seed_cells o g)
  ∧ seed_cells o g = (fun p => (p, mkCell p g)) <$> seed_t o.
Proof.
  assert (seed_cells o g = (fun p => (p, mkCell p g)) <$> seed_t o) as Hseed.
  { unfold seed_cells. rewrite cells_of_points_fresh; [done|].
    apply seed_t_NoDup. }
  split; [|done]. rewrite Hseed. split.
  - unfold Dict.keys. rewrite <- list_fmap_compose.
    rewrite (list_fmap_ext _ id (seed_t o)); [|done].
    rewrite list_fmap_id. apply seed_t_NoDup.
  - by apply Forall_fmap, Forall_true.
Qed.

(** X9. The dict comprehension that seeds the population, on any list of
    points: the result is well-formed and holds exactly the listed points,
    each with a cell at that point stamped [gen]; when no point is listed
    twice it is the list itself, in order.  The seed of [main] is such a
    list wherever the centre is, so the run starts from five cells. *)
Theorem seeding_population ps o g :
  population_wf (cells_of_points ps g Dict.empty)
  ∧ (∀ p, Dict.get p (cells_of_points ps g Dict.empty)
          = if decide (p ∈ ps) then Some (mkCell p g) else None)
  ∧ (NoDup ps →
     cells_of_points ps g Dict.empty = (fun p => (p, mkCell p g)) <$> ps)
  ∧ seed_cells o g = (fun p => (p, mkCell p g)) <$> seed_t o
  ∧ length (seed_cells o g) = 5%nat.
Proof.
  assert (∀ p, Dict.get p (cells_of_points ps g Dict.empty)
               = if decide (p ∈ ps) then Some (mkCell p g) else None) as Hget.
  { intros p. by rewrite get_cells_of_points. }
  assert (NoDup (Dict.keys (cells_of_points ps g Dict.empty))) as Hnd.
  { apply NoDup_keys_cells_of_points. apply NoDup_nil_2. }
  assert (seed_cells o g = (fun p => (p, mkCell p g)) <$> seed_t o) as Hseed.
  { unfold seed_cells. rewrite cells_of_points_fresh; [done|].
    apply seed_t_NoDup. }
  split_and!; try done.
  - split; [done|]. apply Forall_forall. intros [k c] Hin. simpl.
    apply elem_of_get in Hin; [|done]. rewrite Hget in Hin.
    case_decide; [|done]. by injection Hin as <-.
  - intros Hps. by rewrite cells_of_points_fresh.
  - by rewrite Hseed.
Qed.

Lemma origo_bounds n :
  0 ≤ n → 2 * (n `quot` 2) ≤ n < 2 * (n `quot` 2) + 2.
Proof.
  intros Hn. rewrite Z.quot_div_nonneg by lia.
  pose proof (Z.mul_div_le n 2). pose proof (Z.mul_succ_div_gt n 2). lia.
Qed.

(** X10. [main] on a screen of at least 5 columns and 5 lines (and of a size
    for which the float division of [origo] is exact): the loop never
    raises in [compute_life]; at the start of iteration [n] the generation
    counter is [n], every cell sits at a position of the domain and carries a
    generation between 0 and [n], and every [addch] call of the frame
    addresses a line in [0, rows - 1) and a column in [0, cols - 1), inside
    the window and off its last line and last column, with a colour pair
    between 1 and 7, the pairs [main] initialises. *)
Theorem main_frames cols rows n :
  5 ≤ cols < 2 ^ 53 → 5 ≤ rows < 2 ^ 53 →
  ∃ cells,
    run cols rows n (main_state cols rows) = Some (cells, Z.of_nat n)
    ∧ population_wf cells
    ∧ Forall (fun c => in_domain cols rows (pos c) ∧ 0 ≤ gen c ≤ Z.of_nat n)
        (Dict.values cells)
    ∧ Forall (fun cmd => 0 ≤ cmd.1.1 < rows - 1 ∧ 0 ≤ cmd.1.2 < cols - 1
                         ∧ 1 ≤ cmd.2 ≤ 7)
        (frame cells).
Proof.
  intros Hc Hr.
  assert (dims_ok cols rows) as Hdims by (split; lia).
  set (P := fun (cs : Dict.t Cell) (k : Z) =>
              0 ≤ k
              ∧ Forall (fun c => align cols rows (pos c) = pos c
                                 ∧ 0 ≤ gen c ≤ k) (Dict.values cs)).
  assert (∀ cs k out, population_wf cs → P cs k →
            compute_life cols rows cs k = Some out → P out (k + 1)) as Hkeep.
  { intros cs k out Hwfk [Hk Hcs] Hout.
    destruct (compute_life_step_cells cols rows cs k Hdims Hwfk)
      as (out' & Hout' & Hwfo & Hstep).
    assert (out' = out) as -> by congruence.
    split; [lia|]. rewrite Forall_forall in Hcs. apply Forall_forall.
    intros c Hin. unfold Dict.values in Hin.
    apply list_elem_of_fmap in Hin as ([p c'] & -> & Hin). simpl.
    apply elem_of_get in Hin; [|apply Hwfo].
    destruct (Hstep p c' Hin) as [Hold|[Hal ->]].
    - destruct (wf_get_inv _ _ _ Hwfk Hold) as [_ Hv].
      destruct (Hcs c' Hv). split; [done|lia].
    - simpl. split; [done|lia]. }
  pose proof (origo_bounds cols ltac:(lia)) as Hox.
  pose proof (origo_bounds rows ltac:(lia)) as Hoy.
  destruct (seeding_population_aux (origo cols rows) 0) as [Hwf0 Hseed].
  assert (P (seed_cells (origo cols rows) 0) 0) as Hstart.
  { split; [lia|]. rewrite Hseed. unfold Dict.values.
    rewrite <- list_fmap_compose. apply Forall_fmap.
    unfold seed_t, seed. rewrite !fmap_cons, fmap_nil.
    repeat (apply Forall_cons; split;
            [simpl; split; [apply align_small; simpl; lia|lia]|]).
    apply Forall_nil_2. }
  destruct (run_invariant cols rows P n _ 0 Hdims Hkeep Hwf0 Hstart)
    as (cells & Hrun & Hwf & _ & Hcells).
  rewrite Z.add_0_l in *.
  exists cells. split_and!; [done|done| |].
  - eapply Forall_impl; [exact Hcells|]. intros c [Hal ?].
    split; [by apply in_domain_align|done].
  - unfold frame. apply Forall_fmap. eapply Forall_impl; [exact Hcells|].
    intros c [Hal _]. simpl. rewrite <- Hal. unfold align; simpl.
    pose proof (Z.mod_pos_bound (x (pos c)) (cols - 1)).
    pose proof (Z.mod_pos_bound (y (pos c)) (rows - 1)).
    pose proof (Z.mod_pos_bound (gen c) 7). lia.
Qed.

Lemma main_frames_witness :
  5 ≤ 30 < 2 ^ 53 ∧ 5 ≤ 20 < 2 ^ 53
  ∧ ∃ cells,
      run 30 20 4 (main_state 30 20) = Some (cells, Z.of_nat 4)
      ∧ population_wf cells
      ∧ Forall (fun c => in_domain 30 20 (pos c) ∧ 0 ≤ gen c ≤ Z.of_nat 4)
          (Dict.values cells)
      ∧ Forall (fun cmd => 0 ≤ cmd.1.1 < 20 - 1 ∧ 0 ≤ cmd.1.2 < 30 - 1
                           ∧ 1 ≤ cmd.2 ≤ 7)
          (frame cells).
Proof.
  assert (5 ≤ 30 < 2 ^ 53) as H30 by (split; [discriminate|reflexivity]).
  assert (5 ≤ 20 < 2 ^ 53) as H20 by (split; [discriminate|reflexivity]).
  split; [exact H30|]. split; [exact H20|].
  apply (main_frames 30 20 4); [exact H30|exact H20].
Defined.

(** *** The step on the torus and the step on the plane *)

Lemma elem_of_align_fmap cols rows (K : list Point) p :
  dims_ok cols rows →
  p ∈ align cols rows <$> K ↔
  ∃ u, u ∈ K ∧ align_point cols rows u = Some p.
Proof.
  intros Hdims. rewrite list_elem_of_fmap. split.
  - intros (u & -> & Hu). exists u. split; [done|]. by apply align_point_ok.
  - intros (u & Hu & Hal). exists u. split; [|done].
    rewrite align_point_ok in Hal by done. by injection Hal.
Qed.





(** A still life of the plane that fits the torus is left alone by every
    step, cell values included. *)
Lemma still_life_lives cols rows K x0 x1 y0 y1 cells gen :
  0 < cols - 1 → 0 < rows - 1 →
  Forall (in_box x0 x1 y0 y1 0) K →
  x1 - x0 + 3 ≤ cols - 1 ∧ y1 - y0 + 3 ≤ rows - 1 →
  (∀ p, Dict.mem p cells = true ↔ p ∈ align cols rows <$> K) →
  (∀ u, u ∈ planar_next K ↔ u ∈ K) →
  ∀ p, lives cols rows cells gen p = Dict.get p cells.
Proof.
  intros HW HH Hbox Hfit Hkeys Hstill p.
  pose proof (planar_agreement cols rows HW HH K x0 x1 y0 y1 Hbox Hfit
                cells Hkeys gen p) as Hiff.
  rewrite (elem_of_fmap_ext _ _ K _ Hstill), <- Hkeys, mem_get in Hiff.
  unfold lives in *. destruct (Dict.get p cells) as [c|] eqn:Hp.
  - destruct (survives _); [done|].
    destruct Hiff as [_ Hiff]. by destruct Hiff.
  - destruct (_ && _); [|done].
    destruct Hiff as [Hiff _]. by destruct Hiff.
Qed.

(** X12. Still lifes: when a pattern of the plane that is its own next
    pattern fits the torus (three columns and three lines to spare), the
    loop of [main] leaves its population alone: after any number of
    iterations the population is the same mapping, each cell with the
    generation it started with. *)
Theorem still_life_stays cols rows K x0 x1 y0 y1 cells g n :
  0 < cols - 1 → 0 < rows - 1 →
  Forall (in_box x0 x1 y0 y1 0) K →
  x1 - x0 + 3 ≤ cols - 1 ∧ y1 - y0 + 3 ≤ rows - 1 →
  population_wf cells →
  (∀ p, Dict.mem p cells = true ↔
        ∃ u, u ∈ K ∧ align_point cols rows u = Some p) →
  (∀ u, u ∈ planar_next K ↔ u ∈ K) →
  ∃ cells',
    run cols rows n (cells, g) = Some (cells', g + Z.of_nat n)
    ∧ same_mapping cells' cells ∧ cells' ≡ₚ cells.
Proof.
  intros HW HH Hbox Hfit Hwf Hkeys Hstill.
  assert (dims_ok cols rows) as Hdims by (split; lia).
  assert (∀ p, Dict.mem p cells = true ↔ p ∈ align cols rows <$> K) as Hkeys'.
  { intros p. by rewrite Hkeys, elem_of_align_fmap. }
  set (P := fun (cs : Dict.t Cell) (k : Z) => same_mapping cs cells).
  assert (∀ cs k out, population_wf cs → P cs k →
            compute_life cols rows cs k = Some out → P out (k + 1)) as Hkeep.
  { intros cs k out Hwfk Hsame Hout p.
    destruct (compute_life_lives cols rows Hdims cs k Hwfk)
      as (out' & Hout' & _ & Hlives).
    assert (out' = out) as -> by congruence.
    rewrite Hlives, (lives_ext cols rows cs cells k p Hsame).
    by apply (still_life_lives cols rows K x0 x1 y0 y1). }
  destruct (run_invariant cols rows P n cells g Hdims Hkeep Hwf)
    as (cells' & Hrun & Hwf' & Hsame); [by intros p|].
  exists cells'. split_and!; [done|done|].
  by apply same_mapping_Permutation.
Qed.

Lemma block_wf : population_wf block.
Proof.
  split.
  - unfold block, Dict.keys. simpl.
    repeat (apply NoDup_cons; split;
            [rewrite ?elem_of_cons, elem_of_nil; intros H;
             repeat destruct H as [H|H]; discriminate H || exact H|]).
    apply NoDup_nil_2.
  - repeat (apply Forall_cons; split; [reflexivity|]). apply Forall_nil_2.
Defined.

Lemma block_in_box : Forall (in_box 3 4 4 5 0) block_points.
Proof.
  unfold in_box, block_points.
  repeat (apply Forall_cons; split; [simpl; lia|]). apply Forall_nil_2.
Qed.

Lemma block_keys_aligned p :
  Dict.mem p block = true ↔
  ∃ u, u ∈ block_points ∧ align_point 11 11 u = Some p.
Proof.
  rewrite mem_true_keys. unfold block, block_points, Dict.keys. simpl. split.
  - intros Hp. exists p. split; [done|].
    rewrite !elem_of_cons, elem_of_nil in Hp.
    destruct Hp as [->|[->|[->|[->|[]]]]]; reflexivity.
  - intros (u & Hu & Hal). rewrite !elem_of_cons, elem_of_nil in Hu.
    destruct Hu as [->|[->|[->|[->|[]]]]]; injection Hal as <-;
      rewrite !elem_of_cons; auto.
Qed.

Lemma block_planar_still u : u ∈ planar_next block_points ↔ u ∈ block_points.
Proof.
  let l := eval vm_compute in (planar_next block_points) in
  change (planar_next block_points) with l.
  unfold block_points. rewrite !elem_of_cons, elem_of_nil. tauto.
Qed.

Lemma still_life_stays_witness :
  0 < 11 - 1 ∧ 0 < 11 - 1
  ∧ Forall (in_box 3 4 4 5 0) block_points
  ∧ (4 - 3 + 3 ≤ 11 - 1 ∧ 5 - 4 + 3 ≤ 11 - 1)
  ∧ population_wf block
  ∧ (∀ p, Dict.mem p block = true ↔
          ∃ u, u ∈ block_points ∧ align_point 11 11 u = Some p)
  ∧ (∀ u, u ∈ planar_next block_points ↔ u ∈ block_points)
  ∧ ∃ cells',
      run 11 11 3 (block, 9) = Some (cells', 9 + Z.of_nat 3)
      ∧ same_mapping cells' block ∧ cells' ≡ₚ block.
Proof.
  assert (4 - 3 + 3 ≤ 11 - 1 ∧ 5 - 4 + 3 ≤ 11 - 1) as Hfit
    by (split; discriminate).
  split; [reflexivity|]. split; [reflexivity|]. split; [apply block_in_box|].
  split; [exact Hfit|]. split; [apply block_wf|].
  split; [apply block_keys_aligned|]. split; [apply block_planar_still|].
  apply (still_life_stays 11 11 block_points 3 4 4 5 block 9 3);
    [reflexivity|reflexivity|apply block_in_box|exact Hfit|apply block_wf
    |apply block_keys_aligned|apply block_planar_still].
Defined.

(** *** What the cache holds when a step ends *)

(** X13. When the loop of [compute_life] ends, the cache holds exactly the
    [align_point] images of the eight neighbours of the keys of the
    population, each with its occupancy, so at most eight entries per cell.
    (The cache is not all a step looks up: [num_cell_neighbors] probes the
    neighbours of dead neighbours in [cells] and caches none of them.) *)
Theorem step_cache_extent cols rows cells gen :
  dims_ok cols rows → population_wf cells →
  ∃ st,
    compute_life_loop cols rows (Dict.values cells) cells gen (∅, Dict.empty)
    = Some st
    ∧ (∀ q b, st.1 !! q = Some b ↔
          b = Dict.mem q cells
          ∧ ∃ k d, k ∈ Dict.keys cells ∧ d ∈ dirs
                   ∧ align_point cols rows (shift k d) = Some q)
    ∧ (size st.1 ≤ 8 * length cells)%nat.
Proof.
  intros Hdims Hwf.
  destruct (compute_life_loop_inv cols rows Hdims cells gen Hwf
              (Dict.values cells) [] (∅, Dict.empty))
    as (st & Hrun & Hok & Hdom & _).
  { intros c Hc. by apply wf_get_pos. }
  { by apply wf_values_NoDup. }
  { apply life_inv_init. }
  rewrite app_nil_l in Hdom.
  assert (∀ q, is_Some (st.1 !! q) ↔
               q ∈ (k ← Dict.keys cells; neighbours_in cols rows dirs k))
    as Hdom'.
  { intros q. rewrite Hdom, list_elem_of_bind. split.
    - intros (c & Hc & Hq). exists (pos c). split; [done|].
      unfold Dict.values in Hc. apply list_elem_of_fmap in Hc as ([k c'] & -> & Hin).
      simpl. rewrite (wf_pos _ _ _ Hwf Hin).
      unfold Dict.keys. apply list_elem_of_fmap. by exists (k, c').
    - intros (k & Hq & Hk). unfold Dict.keys in Hk.
      apply list_elem_of_fmap in Hk as ([k' c] & -> & Hin). simpl in Hq.
      exists c. rewrite (wf_pos _ _ _ Hwf Hin). split; [|done].
      unfold Dict.values. apply list_elem_of_fmap. by exists (k', c). }
  exists st. split_and!; [done| |].
  - intros q b. split.
    + intros Hq. split; [by apply Hok|].
      destruct (Hdom' q) as [Hin _].
      assert (is_Some (st.1 !! q)) as Hsome by (by eexists).
      apply Hin, list_elem_of_bind in Hsome as (k & Hq' & Hk).
      unfold neighbours_in in Hq'. apply list_elem_of_fmap in Hq' as (d & -> & Hd).
      exists k, d. split_and!; try done. by apply align_point_ok.
    + intros (-> & k & d & Hk & Hd & Hal).
      rewrite align_point_ok in Hal by done. injection Hal as <-.
      destruct (Hdom' (align cols rows (shift k d))) as [_ [b Hb]].
      { apply list_elem_of_bind. exists k. split; [|done].
        unfold neighbours_in. apply list_elem_of_fmap. by exists d. }
      rewrite Hb. f_equal. by apply Hok.
  - rewrite <- size_dom.
    assert (elements (dom st.1)
            ⊆+ (k ← Dict.keys cells; neighbours_in cols rows dirs k)) as Hsub.
    { apply NoDup_submseteq; [apply NoDup_elements|].
      intros q Hq. apply elem_of_elements, elem_of_dom in Hq. by apply Hdom'. }
    apply submseteq_length in Hsub.
    rewrite length_bind_neighbours in Hsub.
    unfold Dict.keys in Hsub. rewrite length_fmap in Hsub.
    unfold size, set_size. simpl. lia.
Qed.

Lemma step_cache_extent_witness :
  dims_ok 7 7 ∧ population_wf (blinker 0)
  ∧ ∃ st,
      compute_life_loop 7 7 (Dict.values (blinker 0)) (blinker 0) 0
        (∅, Dict.empty)
      = Some st
      ∧ (∀ q b, st.1 !! q = Some b ↔
            b = Dict.mem q (blinker 0)
            ∧ ∃ k d, k ∈ Dict.keys (blinker 0) ∧ d ∈ dirs
                     ∧ align_point 7 7 (shift k d) = Some q)
      ∧ (size st.1 ≤ 8 * length (blinker 0))%nat.
Proof.
  split; [apply dims_ok_7|]. split; [apply blinker_wf|].
  apply (step_cache_extent 7 7 (blinker 0) 0); [apply dims_ok_7|apply blinker_wf].
Defined.

(** *** Populations too small to live *)

Lemma count_dirs_filter cols rows ds p cells :
  count_dirs cols rows ds p cells
  = Z.of_nat (length (filter (fun q => Dict.mem q cells = true)
                        (neighbours_in cols rows ds p))).
Proof.
  induction ds as [|d ds IH]; [done|].
  cbn [count_dirs]. unfold neighbours_in in *. rewrite fmap_cons, filter_cons.
  rewrite IH. unfold occ.
  destruct (Dict.mem (align cols rows (shift p d)) cells) eqn:Hm.
  - rewrite decide_True by done. rewrite length_cons. lia.
  - rewrite decide_False by congruence. lia.
Qed.

Lemma dirs_NoDup : NoDup dirs.
Proof.
  unfold dirs.
  repeat (apply NoDup_cons; split;
          [rewrite ?elem_of_cons, elem_of_nil; intros H;
           repeat destruct H as [H|H]; discriminate H || exact H|]).
  apply NoDup_nil_2.
Qed.

Section Roomy.
Variables cols rows : Z.
Hypothesis HW : 3 ≤ cols - 1.
Hypothesis HH : 3 ≤ rows - 1.

(** On a torus at least 3 wide and 3 high the eight neighbours of a point
    are eight different points, none of them the point itself. *)
Lemma neighbour_inj p d d' :
  d ∈ dirs → d' ∈ dirs →
  align cols rows (shift p d) = align cols rows (shift p d') → d = d'.
Proof.
  intros [? ?]%dirs_small [? ?]%dirs_small Hal.
  injection Hal as Hx Hy.
  apply mod_inj_near in Hx; [|lia|lia].
  apply mod_inj_near in Hy; [|lia|lia].
  destruct d, d'; simpl in *. f_equal; lia.
Qed.

Lemma neighbour_not_self p d :
  d ∈ dirs → align cols rows (shift p d) ≠ p.
Proof.
  intros Hd Hal.
  assert (align cols rows p = p) as Hp.
  { rewrite <- Hal at 1. rewrite align_idem; [done|split; lia]. }
  rewrite <- Hp in Hal at 2. destruct (dirs_small d Hd).
  injection Hal as Hx Hy.
  apply mod_inj_near in Hx; [|lia|lia].
  apply mod_inj_near in Hy; [|lia|lia].
  assert (d = (0, 0)) as -> by (destruct d; simpl in *; f_equal; lia).
  unfold dirs in Hd. rewrite !elem_of_cons, elem_of_nil in Hd.
  repeat destruct Hd as [Hd|Hd]; discriminate Hd || exact Hd.
Qed.

Lemma neighbours_NoDup p : NoDup (neighbours_in cols rows dirs p).
Proof.
  unfold neighbours_in. apply NoDup_fmap_2_strong; [|apply dirs_NoDup].
  intros d d' Hd Hd'. by apply neighbour_inj.
Qed.

(** So a count is bounded by the number of cells, the cell at the point
    itself not counted. *)
Lemma count_le_cells p (cells : Dict.t Cell) :
  NoDup (Dict.keys cells) →
  count cols rows p cells
  ≤ Z.of_nat (length cells) - (if Dict.mem p cells then 1 else 0).
Proof.
  intros Hnd. unfold count. rewrite count_dirs_filter.
  set (l := filter _ _).
  assert (NoDup l) as Hl by apply NoDup_filter, neighbours_NoDup.
  assert (∀ q, q ∈ l → q ∈ Dict.keys cells ∧ q ≠ p) as Hin.
  { intros q [Hm Hq]%list_elem_of_filter. split; [by apply mem_true_keys|].
    unfold neighbours_in in Hq. apply list_elem_of_fmap in Hq as (d & -> & Hd).
    by apply neighbour_not_self. }
  assert (length (Dict.keys cells) = length cells) as Hlen
    by (unfold Dict.keys; by rewrite length_fmap).
  destruct (Dict.mem p cells) eqn:Hp.
  - assert (p :: l ⊆+ Dict.keys cells) as Hsub.
    { apply NoDup_submseteq.
      - apply NoDup_cons. split; [|done]. intros Hpl. by destruct (Hin p Hpl).
      - intros q [->|Hq]%elem_of_cons; [by apply mem_true_keys|].
        by destruct (Hin q Hq). }
    apply submseteq_length in Hsub. rewrite length_cons in Hsub. lia.
  - assert (l ⊆+ Dict.keys cells) as Hsub.
    { apply NoDup_submseteq; [done|]. intros q Hq. by destruct (Hin q Hq). }
    apply submseteq_length in Hsub. lia.
Qed.

End Roomy.

(** X14. Fewer than three cells cannot live: on a domain at least 3 wide and
    3 high, the next population of a population of at most two cells is
    empty.  The room is needed: on a domain 2 wide a cell sees its one
    horizontal neighbour on both sides, and two cells side by side survive
    and breed. *)
Theorem small_population_dies cols rows cells gen :
  3 ≤ cols - 1 → 3 ≤ rows - 1 →
  population_wf cells → (length cells ≤ 2)%nat →
  compute_life cols rows cells gen = Some []
  ∧ (length <$> compute_life 3 4 [ (mkPoint 0 0, mkCell (mkPoint 0 0) 0);
                                   (mkPoint 1 0, mkCell (mkPoint 1 0) 0) ] 0)
    = Some 6%nat.
Proof.
  intros HW HH Hwf Hlen. split; [|vm_compute; reflexivity].
  assert (dims_ok cols rows) as Hdims by (split; lia).
  destruct (compute_life_lives cols rows Hdims cells gen Hwf)
    as (out & Hrun & _ & Hout).
  rewrite Hrun. f_equal.
  destruct out as [|[k c] out]; [done|]. exfalso.
  specialize (Hout k). simpl in Hout. rewrite decide_True in Hout by done.
  symmetry in Hout. apply lives_Some in Hout.
  pose proof (count_le_cells cols rows HW HH k cells (proj1 Hwf)) as Hle.
  pose proof (count_bounds cols rows k cells) as Hb.
  destruct Hout as [[Hk ?]|(Hk & _ & ? & _)].
  - assert (Dict.mem k cells = true) as Hm by (apply mem_get; by rewrite Hk).
    rewrite Hm in Hle. lia.
  - apply get_None_mem in Hk. rewrite Hk in Hle. lia.
Qed.

Lemma small_population_dies_witness :
  let cells := [ (mkPoint 2 2, mkCell (mkPoint 2 2) 0);
                 (mkPoint 3 3, mkCell (mkPoint 3 3) 1) ] in
  3 ≤ 7 - 1 ∧ 3 ≤ 7 - 1 ∧ population_wf cells ∧ (length cells ≤ 2)%nat
  ∧ compute_life 7 7 cells 5 = Some []
  ∧ (length <$> compute_life 3 4 [ (mkPoint 0 0, mkCell (mkPoint 0 0) 0);
                                   (mkPoint 1 0, mkCell (mkPoint 1 0) 0) ] 0)
    = Some 6%nat.
Proof.
  intros cells.
  assert (population_wf cells) as Hwf.
  { split.
    - unfold cells, Dict.keys. simpl.
      repeat (apply NoDup_cons; split;
              [rewrite ?elem_of_cons, elem_of_nil; intros H;
               repeat destruct H as [H|H]; discriminate H || exact H|]).
      apply NoDup_nil_2.
    - repeat (apply Forall_cons; split; [reflexivity|]). apply Forall_nil_2. }
  split; [discriminate|]. split; [discriminate|]. split; [exact Hwf|].
  split; [apply le_n|].
  apply (small_population_dies 7 7 cells 5);
    [discriminate|discriminate|exact Hwf|apply le_n].
Defined.

(** *** Moving a population around the torus *)

Section Translation.
Variables cols rows : Z.
Hypothesis Hdims : dims_ok cols rows.
Variable t : Z * Z.

Abbreviation fwd := (move cols rows t).
Abbreviation bwd := (move cols rows (opposite t)).

Lemma fwd_bwd p : fwd (bwd p) = align cols rows p.
Proof.
  unfold move, opposite. rewrite align_shift_align by done.
  unfold align, shift; simpl. f_equal; f_equal; lia.
Qed.

Lemma bwd_fwd p : bwd (fwd p) = align cols rows p.
Proof.
  unfold move, opposite. rewrite align_shift_align by done.
  unfold align, shift; simpl. f_equal; f_equal; lia.
Qed.

Lemma bwd_neighbour q d :
  bwd (align cols rows (shift q d)) = align cols rows (shift (bwd q) d).
Proof.
  unfold move, opposite. rewrite !align_shift_align by done.
  unfold align, shift; simpl. f_equal; f_equal; lia.
Qed.

Lemma align_bwd p : align cols rows (bwd p) = bwd p.
Proof. unfold move. by apply align_idem. Qed.

Lemma align_fwd p : align cols rows (fwd p) = fwd p.
Proof. unfold move. by apply align_idem. Qed.

Lemma get_translate (cells : Dict.t Cell) q :
  Forall (fun k => align cols rows k = k) (Dict.keys cells) →
  align cols rows q = q →
  Dict.get q (translate cols rows t cells)
  = move_cell cols rows t <$> Dict.get (bwd q) cells.
Proof.
  intros Hkeys Hq. induction cells as [|[k c] cells IH]; [done|].
  unfold Dict.keys in Hkeys. rewrite fmap_cons in Hkeys.
  apply Forall_cons in Hkeys as [Hk Hkeys]. simpl in Hk.
  unfold translate. rewrite fmap_cons. cbn [Dict.get fst snd].
  fold (translate cols rows t cells).
  destruct (decide (q = fwd k)) as [->|Hne].
  - rewrite bwd_fwd, Hk. by rewrite decide_True.
  - rewrite decide_False; [by apply IH|].
    intros Hb. apply Hne. by rewrite <- Hb, fwd_bwd.
Qed.

Lemma translate_keys_aligned (cells : Dict.t Cell) :
  Forall (fun k => align cols rows k = k)
    (Dict.keys (translate cols rows t cells)).
Proof.
  unfold Dict.keys, translate. rewrite <- list_fmap_compose.
  apply Forall_fmap, Forall_true. intros [k c]. simpl. apply align_fwd.
Qed.

Lemma get_translate_outside (cells : Dict.t Cell) q :
  align cols rows q ≠ q → Dict.get q (translate cols rows t cells) = None.
Proof.
  intros Hq. apply get_None_mem, mem_false_keys. intros Hin.
  pose proof (translate_keys_aligned cells) as Hal.
  rewrite Forall_forall in Hal. by apply Hq, Hal.
Qed.

Lemma translate_wf (cells : Dict.t Cell) :
  population_wf cells →
  Forall (fun k => align cols rows k = k) (Dict.keys cells) →
  population_wf (translate cols rows t cells).
Proof.
  intros Hwf Hkeys. split.
  - assert (Dict.keys (translate cols rows t cells) = fwd <$> Dict.keys cells)
      as ->.
    { unfold Dict.keys, translate. by rewrite <- !list_fmap_compose. }
    apply NoDup_fmap_2_strong; [|apply Hwf].
    rewrite Forall_forall in Hkeys.
    intros k k' Hk Hk' Heq.
    rewrite <- (Hkeys k Hk), <- (Hkeys k' Hk'), <- !bwd_fwd. by rewrite Heq.
  - unfold translate. apply Forall_fmap, Forall_forall. intros [k c] Hin.
    simpl. by rewrite (wf_pos _ _ _ Hwf Hin).
Qed.

Lemma count_dirs_translate (cells : Dict.t Cell) ds q :
  Forall (fun k => align cols rows k = k) (Dict.keys cells) →
  count_dirs cols rows ds q (translate cols rows t cells)
  = count_dirs cols rows ds (bwd q) cells.
Proof.
  intros Hkeys. induction ds as [|d ds IH]; [done|].
  cbn [count_dirs]. rewrite IH. f_equal.
  unfold occ, Dict.mem.
  rewrite get_translate by (done || by apply align_idem).
  rewrite bwd_neighbour.
  by destruct (Dict.get (align cols rows (shift (bwd q) d)) cells).
Qed.

Lemma lives_translate (cells : Dict.t Cell) gen q :
  Forall (fun k => align cols rows k = k) (Dict.keys cells) →
  align cols rows q = q →
  lives cols rows (translate cols rows t cells) gen q
  = move_cell cols rows t <$> lives cols rows cells gen (bwd q).
Proof.
  intros Hkeys Hq. unfold lives, count.
  rewrite count_dirs_translate, get_translate by done.
  destruct (Dict.get (bwd q) cells) as [c|]; simpl.
  - by destruct (survives _).
  - rewrite align_bwd, Hq, !bool_decide_eq_true_2 by done. simpl.
    destruct (_ =? 3); [|done]. simpl. unfold move_cell; simpl.
    by rewrite fwd_bwd, Hq.
Qed.

End Translation.

(** X15. The step commutes with moving the population around the torus: for
    a population at positions of the domain and any vector [t], stepping the
    moved population gives the moved next population, as a mapping: the same
    cells at the moved positions, generations included. *)
Theorem step_commutes_with_translation cols rows t cells gen :
  dims_ok cols rows → population_wf cells →
  Forall (in_domain cols rows) (Dict.keys cells) →
  ∃ out out',
    compute_life cols rows cells gen = Some out
    ∧ compute_life cols rows (translate cols rows t cells) gen = Some out'
    ∧ same_mapping out' (translate cols rows t out)
    ∧ out' ≡ₚ translate cols rows t out.
Proof.
  intros Hdims Hwf Hdom.
  assert (Forall (fun k => align cols rows k = k) (Dict.keys cells)) as Hkeys.
  { eapply Forall_impl; [exact Hdom|]. intros k. by apply in_domain_align. }
  destruct (compute_life_lives cols rows Hdims cells gen Hwf)
    as (out & Hrun & Hwfo & Hout).
  pose proof (translate_wf cols rows t cells Hwf Hkeys) as Hwft.
  destruct (compute_life_lives cols rows Hdims _ gen Hwft)
    as (out' & Hrun' & Hwfo' & Hout').
  assert (Forall (fun k => align cols rows k = k) (Dict.keys out)) as Hkeyso.
  { apply Forall_forall. intros k Hk.
    apply mem_true_keys, mem_get in Hk. rewrite Hout in Hk.
    apply lives_is_Some in Hk as [[Hm _]|(_ & Hal & _)]; [|done].
    rewrite Forall_forall in Hkeys. by apply Hkeys, mem_true_keys. }
  assert (same_mapping out' (translate cols rows t out)) as Hsame.
  { intros q. rewrite Hout'.
    destruct (decide (align cols rows q = q)) as [Hq|Hq].
    - rewrite lives_translate, get_translate by done. by rewrite Hout.
    - rewrite (get_translate_outside cols rows Hdims t out q Hq).
      unfold lives.
      rewrite (get_translate_outside cols rows Hdims t cells q Hq).
      by rewrite bool_decide_eq_false_2. }
  exists out, out'. split_and!; try done.
  apply same_mapping_Permutation; [done| |done].
  by apply translate_wf.
Qed.

Lemma blinker_in_domain : Forall (in_domain 7 7) (Dict.keys (blinker 0)).
Proof.
  unfold blinker, Dict.keys. simpl.
  repeat (apply Forall_cons; split; [reflexivity|]). apply Forall_nil_2.
Qed.

Lemma step_commutes_with_translation_witness :
  dims_ok 7 7 ∧ population_wf (blinker 0)
  ∧ Forall (in_domain 7 7) (Dict.keys (blinker 0))
  ∧ ∃ out out',
      compute_life 7 7 (blinker 0) 0 = Some out
      ∧ compute_life 7 7 (translate 7 7 (5, -2) (blinker 0)) 0 = Some out'
      ∧ same_mapping out' (translate 7 7 (5, -2) out)
      ∧ out' ≡ₚ translate 7 7 (5, -2) out.
Proof.
  split; [apply dims_ok_7|]. split; [apply blinker_wf|].
  split; [apply blinker_in_domain|].
  apply (step_commutes_with_translation 7 7 (5, -2) (blinker 0) 0);
    [apply dims_ok_7|apply blinker_wf|apply blinker_in_domain].
Defined.
